(** * migrate_github_repos.py: local repository scanner and fork migrator

    A shallow embedding of [src/migrate_github_repos.py].

    - Python [str] values are Rocq [string]s; a character is a code point
      below 256.
    - [re.match] is a small backtracking matcher over the regular-expression
      constructs the two URL patterns use.
    - The file system read by [os.walk] and [Path.exists] is a tree of named
      entries; [self.local_repos] is a [gmap] keyed by ["owner/repo"].
    - [print], [input] and the [gh] subprocess are events of a trace threaded
      through a state-and-exception monad; what the outside world answers is
      given by oracles that may depend on the trace so far. *)

From Stdlib Require Import String Ascii List Arith Bool Lia.
From stdpp Require Import gmap strings list fin_maps.

Local Open Scope string_scope.

(* ===================================================================== *)
(** ** Python string methods used by the script *)
(* ===================================================================== *)

Module PyStr.

(** [c.isspace()] for a code point below 256. *)
Definition is_space (c : ascii) : bool :=
  let n := nat_of_ascii c in
  (((9 <=? n) && (n <=? 13)) || ((28 <=? n) && (n <=? 32))
   || (n =? 133) || (n =? 160))%nat.

Fixpoint lstrip (s : string) : string :=
  match s with
  | String c s' => if is_space c then lstrip s' else s
  | EmptyString => EmptyString
  end.

(** [s.strip()] *)
Definition strip (s : string) : string :=
  String.rev (lstrip (String.rev (lstrip s))).

(** [c.lower()] for a code point below 256: A-Z and the Latin-1 capitals
    (all of 192..222 except the multiplication sign 215) move up by 32. *)
Definition lower_char (c : ascii) : ascii :=
  let n := nat_of_ascii c in
  if (((65 <=? n) && (n <=? 90))
      || ((192 <=? n) && (n <=? 222) && negb (n =? 215)))%nat
  then ascii_of_nat (n + 32) else c.

(** [s.lower()] *)
Fixpoint lower (s : string) : string :=
  match s with
  | String c s' => String (lower_char c) (lower s')
  | EmptyString => EmptyString
  end.

(** [s.startswith(p)] *)
Definition startswith (s p : string) : bool := String.prefix p s.

(** [s.split(sep)] for a one-character separator. *)
Fixpoint split (sep : ascii) (s : string) : list string :=
  match s with
  | EmptyString => [EmptyString]
  | String c s' =>
      if Ascii.eqb c sep then EmptyString :: split sep s'
      else match split sep s' with
           | h :: t => String c h :: t
           | [] => [String c EmptyString]
           end
  end.

(** [sep.join(segments)] for a one-character separator. *)
Fixpoint join (sep : ascii) (segments : list string) : string :=
  match segments with
  | [] => EmptyString
  | [x] => x
  | x :: rest => x ++ String sep (join sep rest)
  end.

(** [s.split(sep)[-1]] *)
Definition split_last (sep : ascii) (s : string) : string :=
  List.last (split sep s) EmptyString.

(** Truth value of a string: [if s:] *)
Definition truthy (s : string) : bool :=
  match s with EmptyString => false | _ => true end.

(** [s.endswith(suffix)] *)
Fixpoint endswith (s suffix : string) : bool :=
  String.eqb s suffix
  || match s with
     | String _ s' => endswith s' suffix
     | EmptyString => false
     end.

(** [all(f(c) for c in s)] *)
Fixpoint all_chars (f : ascii -> bool) (s : string) : bool :=
  match s with
  | EmptyString => true
  | String c s' => f c && all_chars f s'
  end.

(** [c in s] for a character [c]. *)
Definition contains (c : ascii) (s : string) : bool :=
  negb (all_chars (fun d => negb (Ascii.eqb d c)) s).

End PyStr.

(* ===================================================================== *)
(** ** [re.match] for the constructs of the URL patterns *)
(* ===================================================================== *)

Module Re.

(** One-character matchers: a literal, [.] (anything but a newline) and
    a negated class [[^c]]. *)
Inductive charset : Type :=
| CsLit (c : ascii)
| CsDot
| CsNot (c : ascii).

Definition newline : ascii := ascii_of_nat 10.

Definition cs_match (cs : charset) (c : ascii) : bool :=
  match cs with
  | CsLit d => Ascii.eqb c d
  | CsDot => negb (Ascii.eqb c newline)
  | CsNot d => negb (Ascii.eqb c d)
  end.

Inductive regex : Type :=
| REps
| RChar (cs : charset)
| RSeq (r1 r2 : regex)
| RGroup (r : regex)                    (* ( r )     capturing *)
| RPlus (greedy : bool) (cs : charset)  (* cs+  and  cs+?      *)
| ROpt (r : regex)                      (* (?: r )?  greedy    *)
| REnd.                                 (* $                   *)

(** The literal text [s]. *)
Fixpoint lit (s : string) : regex :=
  match s with
  | EmptyString => REps
  | String c s' => RSeq (RChar (CsLit c)) (lit s')
  end.

(** [$] without MULTILINE: the end of the string, or just before a
    newline that ends the string. *)
Definition at_end (s : string) : bool :=
  match s with
  | EmptyString => true
  | String c EmptyString => Ascii.eqb c newline
  | _ => false
  end.

(** What a group captured: the part of [s] consumed down to [s']. *)
Definition consumed (s s' : string) : string :=
  substring 0 (String.length s - String.length s') s.

Section Backtracking.
Context {R : Type}.

(** Greedy repetition: take one more character first, and only when
    the rest of the pattern then fails hand the position to [k]. *)
Fixpoint star_greedy (cs : charset) (k : string -> option R)
    (s : string) : option R :=
  match s with
  | String c s' =>
      if cs_match cs c then
        match star_greedy cs k s' with
        | Some m => Some m
        | None => k s
        end
      else k s
  | EmptyString => k s
  end.

(** Lazy repetition: try the rest of the pattern first, and take one
    more character only when that fails. *)
Fixpoint star_lazy (cs : charset) (k : string -> option R)
    (s : string) : option R :=
  match k s with
  | Some m => Some m
  | None =>
      match s with
      | String c s' => if cs_match cs c then star_lazy cs k s' else None
      | EmptyString => None
      end
  end.
End Backtracking.

(** [rmatch r s caps k]: match [r] at the front of [s], the groups closed
    so far being [caps], then run the rest of the pattern [k] on what is
    left; alternatives are tried in the order Python's engine tries
    them. *)
Fixpoint rmatch (r : regex) (s : string) (caps : list string)
    (k : string -> list string -> option (list string))
    : option (list string) :=
  match r with
  | REps => k s caps
  | RChar cs =>
      match s with
      | String c s' => if cs_match cs c then k s' caps else None
      | EmptyString => None
      end
  | RSeq r1 r2 => rmatch r1 s caps (fun s' caps' => rmatch r2 s' caps' k)
  | RGroup r1 =>
      rmatch r1 s caps (fun s' caps' => k s' (caps' ++ [consumed s s'])%list)
  | RPlus greedy cs =>
      match s with
      | String c s' =>
          if cs_match cs c then
            (if greedy then star_greedy else star_lazy)
              cs (fun t => k t caps) s'
          else None
      | EmptyString => None
      end
  | ROpt r1 =>
      match rmatch r1 s caps k with
      | Some m => Some m
      | None => k s caps
      end
  | REnd => if at_end s then k s caps else None
  end.

(** [re.match(pattern, s)]: anchored at the start only; the result is
    [match.groups()]. *)
Definition re_match (pattern : regex) (s : string) : option (list string) :=
  rmatch pattern s [] (fun _ caps => Some caps).

End Re.

(* ===================================================================== *)
(** ** The file system seen by [os.walk] and [Path.exists] *)
(* ===================================================================== *)

Module Fs.

Local Unset Elimination Schemes.
(** A directory is the list of its named entries, in the order
    [os.scandir] reports them.  Symbolic links, which [os.walk] lists but
    does not follow, are left out. *)
Inductive node : Type :=
| File
| Dir (entries : list (string * node)).
Local Set Elimination Schemes.

(** Induction over a tree, with the property known of every entry of a
    directory. *)
Fixpoint node_ind (P : node -> Prop) (HFile : P File)
    (HDir : forall entries,
        Forall (fun e => P (snd e)) entries -> P (Dir entries))
    (n : node) : P n :=
  match n with
  | File => HFile
  | Dir entries =>
      HDir entries
        ((fix all (l : list (string * node))
            : Forall (fun e => P (snd e)) l :=
            match l with
            | [] => @List.Forall_nil _ _
            | e :: l' =>
                @List.Forall_cons _ _ e l'
                  (match e return P (snd e) with
                   | (_, child) => node_ind P HFile HDir child
                   end)
                  (all l')
            end) entries)
  end.

(** A path is the list of its components below the scanned base path. *)
Definition path : Type := list string.

(** The entry called [name]: what joining [name] to the directory's path
    resolves to. *)
Fixpoint lookup_entry {A : Type} (name : string)
    (entries : list (string * A)) : option A :=
  match entries with
  | [] => None
  | (n, x) :: rest =>
      if String.eqb n name then Some x else lookup_entry name rest
  end.

Fixpoint resolve (n : node) (p : path) : option node :=
  match p with
  | [] => Some n
  | name :: p' =>
      match n with
      | Dir entries =>
          match lookup_entry name entries with
          | Some child => resolve child p'
          | None => None
          end
      | File => None
      end
  end.

(** In a directory no two entries share a name. *)
Fixpoint unique_names (n : node) : bool :=
  match n with
  | File => true
  | Dir entries =>
      bool_decide (NoDup (map fst entries))
      && forallb (fun '(_, child) => unique_names child) entries
  end.

(** [p.exists()] *)
Definition path_exists (fs : node) (p : path) : bool :=
  match resolve fs p with Some _ => true | None => false end.

Definition is_dir (n : node) : bool :=
  match n with Dir _ => true | File => false end.

(** The [dirs] and [nondirs] lists [os.walk] builds from a directory. *)
Definition dir_names (entries : list (string * node)) : list string :=
  map fst (List.filter (fun e => is_dir (snd e)) entries).
Definition file_names (entries : list (string * node)) : list string :=
  map fst (List.filter (fun e => negb (is_dir (snd e))) entries).

(** [for root, dirs, files in os.walk(top): dirs[:], s = body(...)]
    top-down: the directory is handed to the loop body, which may prune
    [dirs]; the walk then descends, in order, into each name the body
    left, resolved against the directory.  A name that is not a
    directory cannot be listed, so nothing is yielded for it. *)
Section Walk.
Context {S : Type}.
Variable body : path -> list string -> list string -> S -> list string * S.

Fixpoint walk (n : node) (root : path) (s : S) : S :=
  match n with
  | File => s
  | Dir entries =>
      let subs := map (fun '(name, child) => (name, walk child)) entries in
      let '(dirs, s1) :=
        body root (dir_names entries) (file_names entries) s in
      fold_left
        (fun acc d =>
           match lookup_entry d subs with
           | Some w => w (root ++ [d])%list acc
           | None => acc
           end)
        dirs s1
  end.
End Walk.

End Fs.

(* ===================================================================== *)
(** ** [class GitHubRepoScanner] *)
(* ===================================================================== *)

Module GitHubRepoScanner.
Import Re Fs.

(** The dictionary [parse_github_url] returns. *)
Record repo_info : Type := RepoInfo {
  owner : string;
  repo : string;
  full_name : string
}.

(** A value of [self.local_repos]. *)
Record local_repo : Type := LocalRepo {
  lr_path : path;
  lr_owner : string;
  lr_repo : string;
  lr_url : string
}.

(** What the scan does, in order: the directories [os.walk] yields, the
    calls of git and the lines printed. *)
Inductive scan_event : Type :=
| Yield (root : path)
| GitRemoteGetUrl (repo_path : path) (remote_name : string)
| PrintScanning
| PrintFound (full_name : string) (root : path)
| PrintFoundCount (n : nat).

Record scan_state : Type := ScanState {
  local_repos : gmap string local_repo;
  scan_log : list scan_event
}.

Definition is_git_repository (fs : node) (p : path) : bool :=
  path_exists fs (p ++ [".git"])%list.

Definition ssh_prefix : string := "git@github.com:".
Definition https_prefix : string := "https://github.com/".

(** [prefix ([^/]+)/(.+?)(?:\.git)?$] *)
Definition url_pattern (prefix : string) : regex :=
  RSeq (lit prefix)
    (RSeq (RGroup (RPlus true (CsNot "/")))
      (RSeq (RChar (CsLit "/"))
        (RSeq (RGroup (RPlus false CsDot))
          (RSeq (ROpt (lit ".git")) REnd)))).

(** [r'git@github\.com:([^/]+)/(.+?)(?:\.git)?$'] *)
Definition ssh_pattern : regex := url_pattern ssh_prefix.
(** [r'https://github\.com/([^/]+)/(.+?)(?:\.git)?$'] *)
Definition https_pattern : regex := url_pattern https_prefix.

(** The [for pattern in [ssh_pattern, https_pattern]] loop. *)
Fixpoint first_match (patterns : list regex) (url : string)
    : option repo_info :=
  match patterns with
  | [] => None
  | pattern :: rest =>
      match re_match pattern url with
      | Some [o; r] =>
          Some {| owner := o; repo := r; full_name := o ++ "/" ++ r |}
      | Some _ => None   (* not reached: both patterns have two groups *)
      | None => first_match rest url
      end
  end.

Definition parse_github_url (url : string) : option repo_info :=
  if PyStr.truthy url then first_match [ssh_pattern; https_pattern] url
  else None.

(** What may follow the repository name: nothing or [.git], and then the
    end of the string or one last newline. *)
Definition url_tail (t : string) : Prop :=
  t = "" \/ t = ".git"
  \/ t = String newline "" \/ t = ".git" ++ String newline "".

(** The shape the pattern with the given prefix describes: an owner
    without [/], a [/], and a name on one line. *)
Definition url_shape (prefix url : string) : Prop :=
  exists o n t,
    url = prefix ++ o ++ "/" ++ n ++ t
    /\ o <> "" /\ PyStr.contains "/" o = false
    /\ n <> "" /\ PyStr.contains newline n = false
    /\ url_tail t.

Section Scan.
(** [git -C repo_path remote get-url remote_name]: the standard output
    when git exits with status 0, [None] when [subprocess.run] raises
    [CalledProcessError]. *)
Variable git_remote_get_url : path -> string -> option string.
Variable fs : node.

Definition get_remote_url (repo_path : path) (remote_name : string)
    : option string :=
  match git_remote_get_url repo_path remote_name with
  | Some stdout => Some (PyStr.strip stdout)
  | None => None
  end.

Definition log (e : scan_event) (st : scan_state) : scan_state :=
  {| local_repos := local_repos st;
     scan_log := (scan_log st ++ [e])%list |}.

(** The body of the [for root, dirs, _ in os.walk(...)] loop. *)
Definition scan_body (root : path) (dirs files : list string)
    (st : scan_state) : list string * scan_state :=
  let st := log (Yield root) st in
  let dirs :=
    List.filter
      (fun d => negb (PyStr.startswith d ".") || String.eqb d ".git")
      dirs in
  if is_git_repository fs root then
    let st := log (GitRemoteGetUrl root "origin") st in
    let st :=
      match get_remote_url root "origin" with
      | Some remote_url =>
          if PyStr.truthy remote_url then
            match parse_github_url remote_url with
            | Some repo_info =>
                let full_name := full_name repo_info in
                log (PrintFound full_name root)
                  {| local_repos :=
                       <[full_name :=
                           {| lr_path := root;
                              lr_owner := owner repo_info;
                              lr_repo := repo repo_info;
                              lr_url := remote_url |}]>
                         (local_repos st);
                     scan_log := scan_log st |}
            | None => st
            end
          else st
      | None => st
      end in
    (* dirs.clear() *)
    ([], st)
  else (dirs, st).

Definition scan_directory : scan_state :=
  let st := log PrintScanning {| local_repos := ∅; scan_log := [] |} in
  let st := walk scan_body fs [] st in
  log (PrintFoundCount (size (local_repos st))) st.

(** The directories the walk reached. *)
Definition visited (st : scan_state) : list path :=
  omap (fun e => match e with Yield p => Some p | _ => None end)
       (scan_log st).
End Scan.

(** The reading of the specification's predicate [isRepositoryRoot]: a
    metadata entry [.git] that is a directory lies directly under [p]. *)
Definition metadata_directory_exists (fs : node) (p : path) : bool :=
  match resolve fs (p ++ [".git"])%list with
  | Some (Dir _) => true
  | _ => false
  end.

(** No directory strictly above [q], and at or below [r], is a repository
    root. *)
Definition no_repository_above (fs : node) (r q : path) : Prop :=
  forall p, r `prefix_of` p -> p `prefix_of` q -> p <> q ->
            is_git_repository fs p = false.

(** What a run of the loop from state [st] to state [st'], started at the
    directory [r], may have added: directories and records at or below
    [r] with no repository root above them. *)
Definition scan_step (git_remote_get_url : path -> string -> option string)
    (fs : node) (r : path) (st st' : scan_state) : Prop :=
  (forall q, q ∈ visited st' ->
     q ∈ visited st \/ (r `prefix_of` q /\ no_repository_above fs r q))
  /\ (forall k rec, local_repos st' !! k = Some rec ->
       local_repos st !! k = Some rec
       \/ (r `prefix_of` lr_path rec
           /\ no_repository_above fs r (lr_path rec)
           /\ is_git_repository fs (lr_path rec) = true)).

(** The layout of the specification's example: a repository at [a/b]
    with a vendored repository at [a/b/vendor/c] inside it, each with an
    origin on github.com. *)
Definition fs_nested : node :=
  Dir [("a",
        Dir [("b",
              Dir [(".git", Dir [("config", File)]);
                   ("README", File);
                   ("vendor",
                    Dir [("c", Dir [(".git", Dir [("config", File)]);
                                    ("lib.py", File)])])])])].

Definition git_nested (repo_path : path) (remote_name : string)
    : option string :=
  if decide (repo_path = ["a"; "b"]) then
    Some ("git@github.com:acme/b.git" ++ String newline "")
  else if decide (repo_path = ["a"; "b"; "vendor"; "c"]) then
    Some ("https://github.com/acme/c" ++ String newline "")
  else None.

End GitHubRepoScanner.

(* ===================================================================== *)
(** ** [class GitHubRepoMigrator] *)
(* ===================================================================== *)

Module GitHubRepoMigrator.
Import GitHubRepoScanner.

(** The value under the key ["parent"] of a listed repository:
    the key may be missing, hold JSON [null] (Python [None]), or hold an
    object, whose ["nameWithOwner"] is [None] when absent or null. *)
Inductive parent_field : Type :=
| ParentMissing
| ParentNull
| ParentObject (parent_nameWithOwner : option string).

(** An element of the list [json.loads] returns; of the requested fields
    the script reads these two. *)
Record fork_record : Type := ForkRecord {
  nameWithOwner : string;
  parent : parent_field
}.

(** The lines the migrator prints (colours and layout left out). *)
Inductive message : Type :=
| MsgGhError (stderr : string)
| MsgFetching (source_username : string)
| MsgFoundForks (n : nat)
| MsgNoForks
| MsgSummaryHeader
| MsgTotalForked (n : nat)
| MsgToMigrate (n : nat)
| MsgSkippedCount (n : nat)
| MsgSkippingLocalHeader
| MsgSkippedLocal (repo_name : string) (local_path : Fs.path)
| MsgBlank
| MsgNothingToMigrate
| MsgAboutToMigrate (n : nat) (target_username : string)
| MsgCancelled
| MsgStarting
| MsgDryRun (repo_full_name : string)
| MsgForking (repo_full_name : string)
| MsgForked (target_username : string)
| MsgForkFailed
| MsgNoParent (repo_name : string)
| MsgComplete
| MsgSuccessful (n : nat)
| MsgFailed (n : nat).

Inductive event : Type :=
| Print (m : message)
| Subprocess (argv : list string) (gh_token : string)
| Input (prompt : string).

Inductive exn : Type :=
| AttributeError   (* 'NoneType' object has no attribute 'get' *)
| KeyError.

Inductive result (A : Type) : Type :=
| Ok (a : A)
| Raise (e : exn).
Arguments Ok {A} a.
Arguments Raise {A} e.

(** A computation reads and extends the trace, and returns or raises. *)
Definition M (A : Type) : Type := list event -> result A * list event.

Definition ret {A : Type} (a : A) : M A := fun tr => (Ok a, tr).
Definition bind {A B : Type} (m : M A) (f : A -> M B) : M B :=
  fun tr =>
    match m tr with
    | (Ok a, tr') => f a tr'
    | (Raise e, tr') => (Raise e, tr')
    end.
Definition raise {A : Type} (e : exn) : M A := fun tr => (Raise e, tr).
Definition emit (e : event) : M unit := fun tr => (Ok tt, (tr ++ [e])%list).
Definition print (m : message) : M unit := emit (Print m).

Declare Scope py_scope.
Delimit Scope py_scope with py.
Notation "x <- c1 ;; c2" := (bind c1 (fun x => c2))
  (at level 20, c1 at level 99, c2 at level 200) : py_scope.
Notation "' pat <- c1 ;; c2" :=
  (bind c1 (fun x => match x with pat => c2 end))
  (at level 20, pat pattern, c1 at level 99, c2 at level 200) : py_scope.
Notation "c1 ;; c2" := (bind c1 (fun _ => c2))
  (at level 100, c2 at level 200, right associativity) : py_scope.
Local Open Scope py_scope.

Fixpoint for_each {A : Type} (l : list A) (f : A -> M unit) : M unit :=
  match l with
  | [] => ret tt
  | x :: rest => f x ;; for_each rest f
  end.

Record migrator : Type := Migrator {
  source_token : string;
  target_token : string;
  source_username : string;
  target_username : string
}.

(** Lines 194-206: [local_repo_names = set(local_repos.keys())] and the
    loop that sorts the listed forks into [repos_to_migrate] (records)
    and [repos_skipped] (names). *)
Fixpoint partition_forks (forked_repos : list fork_record)
    (local_repo_names : gset string)
    (repos_to_migrate : list fork_record) (repos_skipped : list string)
    : list fork_record * list string :=
  match forked_repos with
  | [] => (repos_to_migrate, repos_skipped)
  | repo :: rest =>
      let repo_name := nameWithOwner repo in
      if bool_decide (repo_name ∈ local_repo_names)
      then partition_forks rest local_repo_names repos_to_migrate
             (repos_skipped ++ [repo_name])%list
      else partition_forks rest local_repo_names
             (repos_to_migrate ++ [repo])%list repos_skipped
  end.

Definition compute_migration_set (forked_repos : list fork_record)
    (local_repos : gmap string local_repo)
    : list fork_record * list string :=
  partition_forks forked_repos (dom local_repos) [] [].

(** [repo.get('parent', {}).get('nameWithOwner')] *)
Definition get_parent (repo : fork_record) : M (option string) :=
  match parent repo with
  | ParentMissing => ret None          (* {}.get('nameWithOwner') *)
  | ParentNull => raise AttributeError (* None.get('nameWithOwner') *)
  | ParentObject name => ret name
  end.

(** [if x:] for an optional string. *)
Definition truthy (x : option string) : bool :=
  match x with Some s => PyStr.truthy s | None => false end.

(** [confirm.lower() != 'y'] is false. *)
Definition affirmative (confirm : string) : bool :=
  String.eqb (PyStr.lower confirm) "y".

Definition confirm_prompt : string := "Continue? [y/N]: ".

Section World.
(** [gh args] run with [GH_TOKEN=token]: standard output on exit
    status 0, standard error when [CalledProcessError] is raised. *)
Variable gh : list event -> list string -> string -> string + string.
(** What the operator types at a prompt. *)
Variable input_line : list event -> string -> string.
(** [json.loads] on the listing [gh] prints. *)
Variable json_loads : string -> list fork_record.
Variable self : migrator.

Definition input (prompt : string) : M string :=
  fun tr => (Ok (input_line tr prompt), (tr ++ [Input prompt])%list).

Definition run_gh_command (args : list string) (token : string)
    : M (option string) :=
  fun tr =>
    let tr' := (tr ++ [Subprocess ("gh" :: args) token])%list in
    match gh tr args token with
    | inl stdout => (Ok (Some stdout), tr')
    | inr stderr => (Ok None, (tr' ++ [Print (MsgGhError stderr)])%list)
    end.

Definition get_forked_repositories : M (list fork_record) :=
  print (MsgFetching (source_username self)) ;;
  output <- run_gh_command
              ["repo"; "list"; source_username self; "--fork"; "--json";
               "name,nameWithOwner,isFork,parent,url"; "--limit"; "1000"]
              (source_token self) ;;
  if truthy output then
    let repos := json_loads (default "" output) in
    print (MsgFoundForks (length repos)) ;;
    ret repos
  else ret [].

Definition fork_repository (repo_full_name : string) (dry_run : bool)
    : M bool :=
  if dry_run then
    print (MsgDryRun repo_full_name) ;;
    ret true
  else
    print (MsgForking repo_full_name) ;;
    output <- run_gh_command
                ["repo"; "fork"; repo_full_name; "--fork-name";
                 PyStr.split_last "/" repo_full_name]
                (target_token self) ;;
    if truthy output then
      print (MsgForked (target_username self)) ;;
      ret true
    else
      print MsgForkFailed ;;
      ret false.

(** Lines 238-247: the [for repo in repos_to_migrate] loop, with the
    two counters. *)
Fixpoint migration_loop (dry_run : bool)
    (repos_to_migrate : list fork_record) (successful failed : nat)
    : M (nat * nat) :=
  match repos_to_migrate with
  | [] => ret (successful, failed)
  | repo :: rest =>
      parent_repo <- get_parent repo ;;
      if truthy parent_repo then
        ok <- fork_repository (default "" parent_repo) dry_run ;;
        if ok : bool
        then migration_loop dry_run rest (S successful) failed
        else migration_loop dry_run rest successful (S failed)
      else
        print (MsgNoParent (nameWithOwner repo)) ;;
        migration_loop dry_run rest successful failed
  end.

(** Lines 233-253. *)
Definition perform_migration (dry_run : bool)
    (repos_to_migrate : list fork_record) : M unit :=
  print MsgStarting ;;
  ' (successful, failed) <- migration_loop dry_run repos_to_migrate 0 0 ;;
  print MsgComplete ;;
  print (MsgSuccessful successful) ;;
  if (0 <? failed)%nat then print (MsgFailed failed) else ret tt.

(** Lines 208-219: the summary and the list of skipped repositories. *)
Definition report_summary (local_repos : gmap string local_repo)
    (forked_repos repos_to_migrate : list fork_record)
    (repos_skipped : list string) : M unit :=
  print MsgSummaryHeader ;;
  print (MsgTotalForked (length forked_repos)) ;;
  print (MsgToMigrate (length repos_to_migrate)) ;;
  print (MsgSkippedCount (length repos_skipped)) ;;
  match repos_skipped with
  | [] => ret tt
  | _ :: _ =>
      print MsgSkippingLocalHeader ;;
      for_each repos_skipped
        (fun repo_name =>
           match local_repos !! repo_name with
           | Some r => print (MsgSkippedLocal repo_name (lr_path r))
           | None => raise KeyError
           end) ;;
      print MsgBlank
  end.

(** Lines 221-253: nothing to do, or the confirmation and the pass. *)
Definition confirm_and_migrate (dry_run : bool)
    (repos_to_migrate : list fork_record) : M unit :=
  match repos_to_migrate with
  | [] => print MsgNothingToMigrate
  | _ :: _ =>
      if dry_run then perform_migration dry_run repos_to_migrate
      else
        print (MsgAboutToMigrate (length repos_to_migrate)
                 (target_username self)) ;;
        confirm <- input confirm_prompt ;;
        if affirmative confirm
        then perform_migration dry_run repos_to_migrate
        else print MsgCancelled
  end.

Definition migrate_repositories (local_repos : gmap string local_repo)
    (dry_run : bool) : M unit :=
  forked_repos <- get_forked_repositories ;;
  match forked_repos with
  | [] => print MsgNoForks
  | _ :: _ =>
      let '(repos_to_migrate, repos_skipped) :=
        compute_migration_set forked_repos local_repos in
      report_summary local_repos forked_repos repos_to_migrate
        repos_skipped ;;
      confirm_and_migrate dry_run repos_to_migrate
  end.

(** The list a run fetches, and its candidates for migration. *)
Definition listed_forks : list fork_record :=
  match get_forked_repositories [] with
  | (Ok forked_repos, _) => forked_repos
  | (Raise _, _) => []
  end.

Definition candidates (local_repos : gmap string local_repo)
    : list fork_record :=
  fst (compute_migration_set listed_forks local_repos).

(** The run of [migrate_repositories] from an empty trace. *)
Definition run (local_repos : gmap string local_repo) (dry_run : bool)
    : result unit * list event :=
  migrate_repositories local_repos dry_run [].
End World.

(** *** Reading a trace *)

(** The repositories for which [gh repo fork] was started. *)
Definition fork_commands (tr : list event) : list string :=
  omap (fun e =>
          match e with
          | Subprocess ("gh" :: "repo" :: "fork" :: name :: _) _ => Some name
          | _ => None
          end) tr.

Definition printed (tr : list event) : list message :=
  omap (fun e => match e with Print m => Some m | _ => None end) tr.

(** The calls of [fork_repository], each of which starts by printing its
    argument. *)
Definition fork_requests (tr : list event) : list string :=
  omap (fun m =>
          match m with
          | MsgDryRun name | MsgForking name => Some name
          | _ => None
          end) (printed tr).

Definition dry_run_reports (tr : list event) : list string :=
  omap (fun m => match m with MsgDryRun name => Some name | _ => None end)
       (printed tr).

Definition no_parent_reports (tr : list event) : list string :=
  omap (fun m => match m with MsgNoParent name => Some name | _ => None end)
       (printed tr).

(** The numbers of the final [Successful:] and [Failed:] lines. *)
Definition successful_tally (tr : list event) : list nat :=
  omap (fun m => match m with MsgSuccessful n => Some n | _ => None end)
       (printed tr).
Definition failed_tally (tr : list event) : list nat :=
  omap (fun m => match m with MsgFailed n => Some n | _ => None end)
       (printed tr).

(** Everything the properties below read off a trace. *)
Record observations : Type := Obs {
  obs_requests : list string;
  obs_commands : list string;
  obs_dry_runs : list string;
  obs_no_parent : list string;
  obs_successful : list nat;
  obs_failed : list nat
}.

Definition observe (tr : list event) : observations :=
  {| obs_requests := fork_requests tr;
     obs_commands := fork_commands tr;
     obs_dry_runs := dry_run_reports tr;
     obs_no_parent := no_parent_reports tr;
     obs_successful := successful_tally tr;
     obs_failed := failed_tally tr |}.

Definition obs_app (a b : observations) : observations :=
  {| obs_requests := (obs_requests a ++ obs_requests b)%list;
     obs_commands := (obs_commands a ++ obs_commands b)%list;
     obs_dry_runs := (obs_dry_runs a ++ obs_dry_runs b)%list;
     obs_no_parent := (obs_no_parent a ++ obs_no_parent b)%list;
     obs_successful := (obs_successful a ++ obs_successful b)%list;
     obs_failed := (obs_failed a ++ obs_failed b)%list |}.

Definition obs_nil : observations := Obs [] [] [] [] [] [].

(** The parent identity the loop forks from: the non-empty
    ["nameWithOwner"] of a parent object. *)
Definition resolvable_parent (repo : fork_record) : option string :=
  match parent repo with
  | ParentObject (Some name) => if PyStr.truthy name then Some name else None
  | _ => None
  end.

Definition parent_is_null (repo : fork_record) : bool :=
  match parent repo with ParentNull => true | _ => false end.

(** The candidates the loop gets through: all of them, or those before the
    first whose ["parent"] is [None]. *)
Fixpoint processed (repos : list fork_record) : list fork_record :=
  match repos with
  | [] => []
  | repo :: rest =>
      if parent_is_null repo then [] else repo :: processed rest
  end.

(** The candidates skipped for want of a parent. *)
Definition without_parent (repos : list fork_record) : list string :=
  omap (fun repo =>
          match resolvable_parent repo with
          | Some _ => None
          | None => Some (nameWithOwner repo)
          end) repos.

(** What the loop over [repos] shows. *)
Definition loop_observations (dry_run : bool) (repos : list fork_record)
    : observations :=
  let attempts := omap resolvable_parent repos in
  {| obs_requests := attempts;
     obs_commands := if dry_run then [] else attempts;
     obs_dry_runs := if dry_run then attempts else [];
     obs_no_parent := without_parent repos;
     obs_successful := [];
     obs_failed := [] |}.

(** The fork records of the examples below. *)
Definition fork_a : fork_record :=
  {| nameWithOwner := "alice/a"; parent := ParentObject (Some "upstream/a") |}.
Definition fork_b : fork_record :=
  {| nameWithOwner := "alice/b"; parent := ParentObject (Some "upstream/b") |}.
Definition fork_c : fork_record :=
  {| nameWithOwner := "alice/c"; parent := ParentObject (Some "upstream/c") |}.
Definition fork_orphan : fork_record :=
  {| nameWithOwner := "alice/orphan"; parent := ParentMissing |}.
Definition fork_orphan2 : fork_record :=
  {| nameWithOwner := "alice/orphan2"; parent := ParentObject None |}.
Definition fork_null : fork_record :=
  {| nameWithOwner := "alice/gone"; parent := ParentNull |}.

Definition alice_to_bob : migrator :=
  {| source_token := "source-token"; target_token := "target-token";
     source_username := "alice"; target_username := "bob" |}.

(** A world in which every [gh] command succeeds and prints something. *)
Definition gh_succeeds (tr : list event) (args : list string)
    (token : string) : string + string := inl "ok".

Definition local_b : gmap string local_repo :=
  {[ "alice/b" := {| lr_path := ["work"; "b"]; lr_owner := "alice";
                     lr_repo := "b";
                     lr_url := "git@github.com:alice/b.git" |} ]}.

(** *** Further readings of a trace *)

(** The prompts shown to the operator. *)
Definition prompts (tr : list event) : list string :=
  omap (fun e => match e with Input prompt => Some prompt | _ => None end) tr.

(** The command lines started, each with the token it ran under. *)
Definition subprocesses (tr : list event) : list (list string * string) :=
  omap (fun e =>
          match e with
          | Subprocess argv token => Some (argv, token)
          | _ => None
          end) tr.

(** The command line of the listing call of [get_forked_repositories]. *)
Definition list_argv (self : migrator) : list string :=
  ["gh"; "repo"; "list"; source_username self; "--fork"; "--json";
   "name,nameWithOwner,isFork,parent,url"; "--limit"; "1000"].

(** The command line of the fork call of [fork_repository]. *)
Definition fork_argv (repo_full_name : string) : list string :=
  ["gh"; "repo"; "fork"; repo_full_name; "--fork-name";
   PyStr.split_last "/" repo_full_name].

(** A computation that only appends to the trace, and only events that
    satisfy [P]. *)
Definition emits {A : Type} (P : event -> Prop) (m : M A) : Prop :=
  forall tr, exists out, snd (m tr) = (tr ++ out)%list /\ Forall P out.

(** A world in which the listing succeeds and every [gh repo fork] is
    refused. *)
Definition gh_fork_fails (tr : list event) (args : list string)
    (token : string) : string + string :=
  match args with
  | "repo" :: "fork" :: _ => inr "HTTP 403"
  | _ => inl "[...]"
  end.

(** The outcome of one [gh repo fork] as [fork_repository] reads it: the
    command exits with status 0 and prints something. *)
Definition gh_reports_success (r : string + string) : bool :=
  match r with
  | inl stdout => PyStr.truthy stdout
  | inr _ => false
  end.

End GitHubRepoMigrator.

(* ===================================================================== *)
(** ** [main] *)
(* ===================================================================== *)

Module Main.
Import Fs GitHubRepoScanner GitHubRepoMigrator.

(** The namespace [parser.parse_args()] returns. *)
Record arguments : Type := MkArguments {
  local_path : string;
  source_user : string;
  target_user : string;
  dry_run : bool;
  arg_source_token : option string;
  arg_target_token : option string
}.

(** [a or b] on optional strings. *)
Definition or_else (a b : option string) : option string :=
  if truthy a then a else b.

(** The lines [main] prints itself. *)
Inductive main_message : Type :=
| MsgSourceTokenMissing
| MsgSetSourceToken
| MsgTargetTokenMissing
| MsgSetTargetToken
| MsgLocalPathMissing (local_path : string).

(** How [main] ends: [sys.exit(code)] after its own messages, or a return
    after the scan and the migration (which may have raised). *)
Inductive main_result : Type :=
| SysExit (code : nat) (messages : list main_message)
| Completed (scanner : scan_state) (migration : result unit * list event).

Section World.
(** [os.environ.get] *)
Variable environ : string -> option string.
(** The tree at a path, [None] when [os.path.exists] is false. *)
Variable filesystem : string -> option node.
Variable git_remote_get_url : path -> string -> option string.
Variable gh : list event -> list string -> string -> string + string.
Variable input_line : list event -> string -> string.
Variable json_loads : string -> list fork_record.

Definition resolve_source_token (args : arguments) : option string :=
  or_else (arg_source_token args) (environ "GITHUB_SOURCE_TOKEN").

Definition resolve_target_token (args : arguments) : option string :=
  or_else (arg_target_token args) (environ "GITHUB_TARGET_TOKEN").

Definition main (args : arguments) : main_result :=
  let source_token := resolve_source_token args in
  let target_token := resolve_target_token args in
  if negb (truthy source_token) then
    SysExit 1 [MsgSourceTokenMissing; MsgSetSourceToken]
  else if negb (truthy target_token) then
    SysExit 1 [MsgTargetTokenMissing; MsgSetTargetToken]
  else
    match filesystem (local_path args) with
    | None => SysExit 1 [MsgLocalPathMissing (local_path args)]
    | Some fs =>
        let scanner := scan_directory git_remote_get_url fs in
        let migrator :=
          {| source_token := default "" source_token;
             target_token := default "" target_token;
             source_username := source_user args;
             target_username := target_user args |} in
        Completed scanner
          (run gh input_line json_loads migrator (local_repos scanner)
             (dry_run args))
    end.

(** The exit status of the process: that of [sys.exit], 0 after a normal
    return, 1 after an exception nobody caught. *)
Definition exit_status (r : main_result) : nat :=
  match r with
  | SysExit code _ => code
  | Completed _ (Ok _, _) => 0
  | Completed _ (Raise _, _) => 1
  end.
End World.

(** *** A sample invocation

    [--local-path /work --source-user acme --target-user bob
     --source-token '' --target-token flag-target] with only
    [GITHUB_SOURCE_TOKEN] set, over the tree [fs_nested]. *)

Definition environ_sample (name : string) : option string :=
  if String.eqb name "GITHUB_SOURCE_TOKEN" then Some "env-source" else None.

Definition filesystem_sample (local_path : string) : option node :=
  if String.eqb local_path "/work" then Some fs_nested else None.

Definition args_sample : arguments :=
  {| local_path := "/work"; source_user := "acme"; target_user := "bob";
     dry_run := false; arg_source_token := Some "";
     arg_target_token := Some "flag-target" |}.

(** A listed fork whose identity is that of the clone at [a/b]. *)
Definition fork_acme_b : fork_record :=
  {| nameWithOwner := "acme/b"; parent := ParentObject (Some "upstream/b") |}.

End Main.

(* ===================================================================== *)
(** * Properties *)
(* ===================================================================== *)

(** ** Strings *)

#[local] Arguments String.append !s1 s2 : simpl nomatch.

Section StringFacts.

Lemma append_nil_r (s : string) : s ++ "" = s.
Proof. induction s as [|c s IH]; simpl; [reflexivity | now rewrite IH]. Qed.

Lemma append_assoc (a b c : string) : (a ++ b) ++ c = a ++ (b ++ c).
Proof. induction a as [|x a IH]; simpl; [reflexivity | now rewrite IH]. Qed.

Lemma length_append (a b : string) :
  String.length (a ++ b) = String.length a + String.length b.
Proof. induction a as [|x a IH]; simpl; [reflexivity | now rewrite IH]. Qed.

Lemma substring_append (a b : string) :
  substring 0 (String.length a) (a ++ b) = a.
Proof.
  induction a as [|x a IH]; simpl.
  - destruct b; reflexivity.
  - now rewrite IH.
Qed.

Lemma all_chars_append f (a b : string) :
  PyStr.all_chars f (a ++ b) = PyStr.all_chars f a && PyStr.all_chars f b.
Proof.
  induction a as [|x a IH]; simpl; [reflexivity|].
  now rewrite IH, andb_assoc.
Qed.

Lemma contains_cons c d (s : string) :
  PyStr.contains c (String d s) = Ascii.eqb d c || PyStr.contains c s.
Proof.
  unfold PyStr.contains. simpl. rewrite negb_andb, negb_involutive.
  reflexivity.
Qed.

Lemma not_contains_all c (s : string) :
  PyStr.contains c s = false <->
  PyStr.all_chars (fun d => negb (Ascii.eqb d c)) s = true.
Proof. unfold PyStr.contains. now destruct (PyStr.all_chars _ s). Qed.

End StringFacts.

(** ** The matcher *)

Module ReFacts.
Import Re.

Lemma consumed_append (a b : string) : consumed (a ++ b) b = a.
Proof.
  unfold consumed. rewrite length_append.
  replace (String.length a + String.length b - String.length b)
    with (String.length a) by lia.
  apply substring_append.
Qed.

Lemma rmatch_seq r1 r2 s caps k :
  rmatch (RSeq r1 r2) s caps k
  = rmatch r1 s caps (fun s' caps' => rmatch r2 s' caps' k).
Proof. reflexivity. Qed.

Lemma rmatch_char cs c s caps k :
  rmatch (RChar cs) (String c s) caps k
  = if cs_match cs c then k s caps else None.
Proof. reflexivity. Qed.

(** A literal consumes exactly its own text. *)
Lemma rmatch_lit p s caps k : rmatch (lit p) (p ++ s) caps k = k s caps.
Proof.
  induction p as [|c p IH]; simpl; [reflexivity|].
  now rewrite Ascii.eqb_refl.
Qed.

Lemma rmatch_lit_inv p s caps k m :
  rmatch (lit p) s caps k = Some m ->
  exists t, s = p ++ t /\ k t caps = Some m.
Proof.
  revert s. induction p as [|c p IH]; simpl; intros s H.
  - now exists s.
  - destruct s as [|d s]; [discriminate|].
    destruct (Ascii.eqb_spec d c) as [->|]; [|discriminate].
    destruct (IH _ H) as (t & -> & Hk). now exists t.
Qed.

Section Stars.
Context {R : Type} (cs : charset) (k : string -> option R).

(** Either repetition, when it succeeds, has consumed characters of the
    class and handed the rest to the continuation. *)
Lemma star_greedy_inv s m :
  star_greedy cs k s = Some m ->
  exists o t, s = o ++ t /\ PyStr.all_chars (cs_match cs) o = true
              /\ k t = Some m.
Proof.
  induction s as [|c s IH]; simpl; intros H.
  - now exists "", "".
  - destruct (cs_match cs c) eqn:Hc.
    + destruct (star_greedy cs k s) as [m'|] eqn:Hs.
      * destruct (IH H) as (o & t & -> & Ho & Hk).
        exists (String c o), t. simpl. now rewrite Hc, Ho.
      * now exists "", (String c s).
    + now exists "", (String c s).
Qed.

Lemma star_lazy_inv s m :
  star_lazy cs k s = Some m ->
  exists o t, s = o ++ t /\ PyStr.all_chars (cs_match cs) o = true
              /\ k t = Some m.
Proof.
  induction s as [|c s IH]; simpl; intros H.
  - destruct (k "") eqn:Hk; [|discriminate].
    exists "", "". repeat split; congruence.
  - destruct (k (String c s)) eqn:Hk.
    + exists "", (String c s). repeat split; congruence.
    + destruct (cs_match cs c) eqn:Hc; [|discriminate].
      destruct (IH H) as (o & t & -> & Ho & Hk').
      exists (String c o), t. simpl. now rewrite Hc, Ho.
Qed.

(** The greedy repetition backs off to the end of the run when the
    continuation refuses every position where the run could go on. *)
Lemma star_greedy_run o t :
  PyStr.all_chars (cs_match cs) o = true ->
  (forall c u, cs_match cs c = true -> k (String c u) = None) ->
  match t with String c _ => cs_match cs c = false | "" => True end ->
  star_greedy cs k (o ++ t) = k t.
Proof.
  intros Ho Hk Ht. induction o as [|c o IH]; simpl in *.
  - destruct t as [|c u]; [reflexivity|]. simpl. now rewrite Ht.
  - apply andb_prop in Ho as [Hc Ho]. rewrite Hc, (IH Ho).
    destruct (k t) eqn:E; [reflexivity|]. now apply Hk.
Qed.

(** The lazy repetition stops at the first position the continuation
    accepts. *)
Lemma star_lazy_first o t m :
  PyStr.all_chars (cs_match cs) o = true ->
  (forall o1 o2, o = o1 ++ o2 -> o2 <> "" -> k (o2 ++ t) = None) ->
  k t = Some m ->
  star_lazy cs k (o ++ t) = Some m.
Proof.
  intros Ho Hmin Hk. induction o as [|c o IH]; simpl in *.
  - destruct t; simpl; now rewrite Hk.
  - apply andb_prop in Ho as [Hc Ho].
    pose proof (Hmin "" (String c o) eq_refl ltac:(discriminate)) as E.
    simpl in E. rewrite E, Hc. apply IH; [assumption|].
    intros o1 o2 -> Hne. now apply (Hmin (String c o1) o2).
Qed.
End Stars.

(** A group around a repetition captures the run it consumed. *)
Lemma rmatch_group_plus_inv greedy cs s caps k m :
  rmatch (RGroup (RPlus greedy cs)) s caps k = Some m ->
  exists o t, s = o ++ t /\ o <> ""
              /\ PyStr.all_chars (cs_match cs) o = true
              /\ k t (caps ++ [o])%list = Some m.
Proof.
  simpl. destruct s as [|c s]; [discriminate|].
  destruct (cs_match cs c) eqn:Hc; [|discriminate]. intros H.
  assert (exists o t, s = o ++ t
            /\ PyStr.all_chars (cs_match cs) o = true
            /\ k t (caps ++ [consumed (String c s) t])%list = Some m)
    as (o & t & -> & Ho & Hk).
  { destruct greedy;
      [apply star_greedy_inv in H | apply star_lazy_inv in H]; exact H. }
  exists (String c o), t. simpl. rewrite Hc, Ho.
  change (String c (o ++ t)) with (String c o ++ t) in Hk.
  rewrite consumed_append in Hk. repeat split; [discriminate | exact Hk].
Qed.

Lemma rmatch_group_greedy_not d o u caps k :
  o <> "" -> PyStr.contains d o = false ->
  (forall c v caps', c <> d -> k (String c v) caps' = None) ->
  rmatch (RGroup (RPlus true (CsNot d))) (o ++ String d u) caps k
  = k (String d u) (caps ++ [o])%list.
Proof.
  intros Hne Ho Hk. destruct o as [|c o]; [congruence|].
  rewrite contains_cons in Ho. apply orb_false_elim in Ho as [Hc Ho].
  apply not_contains_all in Ho. simpl. rewrite Hc. simpl.
  rewrite star_greedy_run; trivial.
  - change (String c (o ++ String d u)) with (String c o ++ String d u).
    now rewrite consumed_append.
  - intros c' v Hc'. apply Hk. simpl in Hc'.
    destruct (Ascii.eqb_spec c' d); [discriminate | assumption].
  - simpl. now rewrite Ascii.eqb_refl.
Qed.

Lemma rmatch_group_lazy cs n t caps k m :
  n <> "" -> PyStr.all_chars (cs_match cs) n = true ->
  (forall n1 n2 caps', n = n1 ++ n2 -> n1 <> "" -> n2 <> "" ->
     k (n2 ++ t) caps' = None) ->
  k t (caps ++ [n])%list = Some m ->
  rmatch (RGroup (RPlus false cs)) (n ++ t) caps k = Some m.
Proof.
  intros Hne Hn Hmin Hk. destruct n as [|c n]; [congruence|].
  simpl in Hn. apply andb_prop in Hn as [Hc Hn]. simpl. rewrite Hc.
  apply star_lazy_first; trivial.
  - intros o1 o2 -> Ho2.
    apply (Hmin (String c o1) o2); [reflexivity | discriminate | exact Ho2].
  - change (String c (n ++ t)) with (String c n ++ t).
    now rewrite consumed_append.
Qed.

Lemma at_end_true s :
  at_end s = true <-> s = "" \/ s = String newline "".
Proof.
  destruct s as [|c [|d s]]; simpl.
  - tauto.
  - rewrite Ascii.eqb_eq. split; [intros ->; now right|].
    intros [H|H]; [discriminate | congruence].
  - split; [discriminate | intros [H|H]; discriminate].
Qed.

End ReFacts.

(** ** [parse_github_url] *)

Module UrlFacts.
Import Re ReFacts GitHubRepoScanner.

(** The part of both patterns after the second group:
    [(?:\.git)?$]. *)
Definition tail_pattern : regex := RSeq (ROpt (lit ".git")) REnd.

Definition accept : string -> list string -> option (list string) :=
  fun _ caps => Some caps.

Lemma tail_pattern_inv t caps m :
  rmatch tail_pattern t caps accept = Some m -> url_tail t /\ m = caps.
Proof.
  unfold tail_pattern, url_tail, accept. rewrite rmatch_seq.
  cbn [rmatch].
  destruct (rmatch (lit ".git") t caps _) as [m'|] eqn:E.
  - intros [= <-]. apply rmatch_lit_inv in E as (u & -> & E).
    destruct (at_end u) eqn:Hu; [|discriminate]. injection E as <-.
    apply at_end_true in Hu as [-> | ->]; auto.
  - destruct (at_end t) eqn:Ht; [|discriminate]. intros [= <-].
    apply at_end_true in Ht as [-> | ->]; auto.
Qed.

Lemma tail_pattern_accepts t caps :
  url_tail t -> rmatch tail_pattern t caps accept = Some caps.
Proof. intros [-> | [-> | [-> | ->]]]; reflexivity. Qed.

Lemma tail_pattern_rejects t caps :
  ~ url_tail t -> rmatch tail_pattern t caps accept = None.
Proof.
  intros H. destruct (rmatch tail_pattern t caps accept) eqn:E; trivial.
  apply tail_pattern_inv in E as [? _]. contradiction.
Qed.

(** No tail starts with a character of a one-line name followed by
    [.git]. *)
Lemma url_tail_not_before_git n2 : n2 <> "" -> ~ url_tail (n2 ++ ".git").
Proof.
  intros Hne [H | [H | [H | H]]];
    pose proof (f_equal String.length H) as L;
    rewrite length_append in L; simpl in L;
    destruct n2 as [|c [|d n2]]; simpl in L; try congruence; try lia.
  simpl in H. discriminate.
Qed.

Lemma contains_append c (a b : string) :
  PyStr.contains c (a ++ b) = PyStr.contains c a || PyStr.contains c b.
Proof.
  unfold PyStr.contains. now rewrite all_chars_append, negb_andb.
Qed.

Lemma endswith_append m suffix : PyStr.endswith (m ++ suffix) suffix = true.
Proof.
  induction m as [|c m IH]; simpl.
  - destruct suffix as [|c suffix]; [reflexivity|].
    unfold PyStr.endswith; fold PyStr.endswith.
    now rewrite String.eqb_refl.
  - rewrite IH. apply orb_true_r.
Qed.

Lemma url_tail_not_inside n n1 n2 :
  n = n1 ++ n2 -> n2 <> "" ->
  PyStr.contains newline n = false ->
  PyStr.endswith n ".git" = false ->
  ~ url_tail (n2 ++ "").
Proof.
  intros -> Hne Hnl Hgit. rewrite append_nil_r.
  rewrite contains_append in Hnl. apply orb_false_elim in Hnl as [_ Hnl].
  intros [-> | [-> | [-> | ->]]]; try congruence.
  - now rewrite endswith_append in Hgit.
  - discriminate.
  - discriminate.
Qed.

(** The pattern on a URL of its shape whose name cannot end earlier. *)
Lemma url_pattern_match prefix o n t :
  o <> "" -> PyStr.contains "/" o = false ->
  n <> "" -> PyStr.contains newline n = false ->
  url_tail t ->
  (forall n1 n2, n = n1 ++ n2 -> n1 <> "" -> n2 <> "" ->
     ~ url_tail (n2 ++ t)) ->
  re_match (url_pattern prefix) (prefix ++ o ++ "/" ++ n ++ t)
  = Some [o; n].
Proof.
  intros Ho1 Ho2 Hn1 Hn2 Ht Hmin. unfold re_match, url_pattern.
  rewrite rmatch_seq, rmatch_lit, rmatch_seq.
  change ("/" ++ n ++ t) with (String "/" (n ++ t)).
  rewrite rmatch_group_greedy_not; trivial.
  - rewrite rmatch_seq, rmatch_char. cbn [cs_match].
    rewrite Ascii.eqb_refl, rmatch_seq.
    apply rmatch_group_lazy; trivial.
    + now apply not_contains_all.
    + intros n1 n2 caps' E H1 H2.
      apply (tail_pattern_rejects _ caps'). now apply (Hmin n1 n2).
    + now apply (tail_pattern_accepts t).
  - intros c v caps' Hc. rewrite rmatch_seq, rmatch_char. cbn [cs_match].
    destruct (Ascii.eqb_spec c "/"); [contradiction | reflexivity].
Qed.

Lemma url_pattern_inv prefix url m :
  re_match (url_pattern prefix) url = Some m ->
  exists o n t,
    m = [o; n] /\ url = prefix ++ o ++ "/" ++ n ++ t
    /\ o <> "" /\ PyStr.contains "/" o = false
    /\ n <> "" /\ PyStr.contains newline n = false
    /\ url_tail t.
Proof.
  unfold re_match, url_pattern. rewrite rmatch_seq. intros H.
  apply rmatch_lit_inv in H as (s1 & -> & H). rewrite rmatch_seq in H.
  apply rmatch_group_plus_inv in H as (o & s2 & -> & Ho1 & Ho2 & H).
  rewrite rmatch_seq in H. destruct s2 as [|c s2]; [discriminate|].
  rewrite rmatch_char in H. cbn [cs_match] in H.
  destruct (Ascii.eqb_spec c "/") as [-> |]; [|discriminate].
  rewrite rmatch_seq in H.
  apply rmatch_group_plus_inv in H as (n & t & -> & Hn1 & Hn2 & H).
  apply (tail_pattern_inv t) in H as [Ht ->].
  exists o, n, t. repeat split; trivial; now apply not_contains_all.
Qed.

Lemma url_pattern_none prefix url :
  ~ url_shape prefix url -> re_match (url_pattern prefix) url = None.
Proof.
  intros H. destruct (re_match (url_pattern prefix) url) eqn:E; trivial.
  apply url_pattern_inv in E as (o & n & t & _ & E). destruct H.
  now exists o, n, t.
Qed.

Definition supported_prefix (prefix : string) : Prop :=
  prefix = ssh_prefix \/ prefix = https_prefix.

(** Whatever the parser returns was cut out of a URL of one of the two
    shapes. *)
Lemma parse_github_url_inv url r :
  parse_github_url url = Some r ->
  exists prefix t,
    supported_prefix prefix
    /\ url = prefix ++ owner r ++ "/" ++ repo r ++ t
    /\ owner r <> "" /\ PyStr.contains "/" (owner r) = false
    /\ repo r <> "" /\ PyStr.contains newline (repo r) = false
    /\ url_tail t
    /\ full_name r = owner r ++ "/" ++ repo r.
Proof.
  unfold parse_github_url. destruct (PyStr.truthy url); [|discriminate].
  unfold first_match, ssh_pattern, https_pattern.
  destruct (re_match (url_pattern ssh_prefix) url) as [m|] eqn:E1.
  - apply url_pattern_inv in E1 as (o & n & t & -> & E). intros [= <-].
    exists ssh_prefix, t. unfold supported_prefix. simpl. tauto.
  - destruct (re_match (url_pattern https_prefix) url) as [m|] eqn:E2;
      [|discriminate].
    apply url_pattern_inv in E2 as (o & n & t & -> & E). intros [= <-].
    exists https_prefix, t. unfold supported_prefix. simpl. tauto.
Qed.

Lemma parse_github_url_shape prefix o n t :
  supported_prefix prefix ->
  o <> "" -> PyStr.contains "/" o = false ->
  n <> "" -> PyStr.contains newline n = false ->
  url_tail t ->
  (forall n1 n2, n = n1 ++ n2 -> n1 <> "" -> n2 <> "" ->
     ~ url_tail (n2 ++ t)) ->
  parse_github_url (prefix ++ o ++ "/" ++ n ++ t)
  = Some {| owner := o; repo := n; full_name := o ++ "/" ++ n |}.
Proof.
  intros Hp Ho1 Ho2 Hn1 Hn2 Ht Hmin.
  pose proof (url_pattern_match prefix o n t Ho1 Ho2 Hn1 Hn2 Ht Hmin) as E.
  unfold parse_github_url, first_match, ssh_pattern, https_pattern.
  destruct Hp as [-> | ->].
  - rewrite E. reflexivity.
  - rewrite E. reflexivity.
Qed.

Lemma parse_github_url_none url :
  ~ url_shape ssh_prefix url -> ~ url_shape https_prefix url ->
  parse_github_url url = None.
Proof.
  intros H1 H2. unfold parse_github_url, first_match.
  unfold ssh_pattern, https_pattern.
  rewrite (url_pattern_none _ _ H1), (url_pattern_none _ _ H2).
  now destruct (PyStr.truthy url).
Qed.

End UrlFacts.

Section ParseGithubUrl.
Import Re UrlFacts GitHubRepoScanner.

(** C1. The parser on the three URLs of the specification; a trailing
    [.git] is removed from a URL of either supported form, and a name
    that does not end in [.git] is returned whole; a URL of neither
    shape yields [None]. *)
Theorem parse_github_url_strips_git_suffix :
  parse_github_url "git@github.com:acme/widget.git"
  = Some {| owner := "acme"; repo := "widget";
            full_name := "acme/widget" |}
  /\ parse_github_url "https://github.com/acme/widget"
     = Some {| owner := "acme"; repo := "widget";
               full_name := "acme/widget" |}
  /\ parse_github_url "https://gitlab.com/acme/widget.git" = None
  /\ (forall prefix o n,
        supported_prefix prefix ->
        o <> "" -> PyStr.contains "/" o = false ->
        n <> "" -> PyStr.contains newline n = false ->
        parse_github_url (prefix ++ o ++ "/" ++ n ++ ".git")
        = Some {| owner := o; repo := n; full_name := o ++ "/" ++ n |}
        /\ (PyStr.endswith n ".git" = false ->
            parse_github_url (prefix ++ o ++ "/" ++ n)
            = Some {| owner := o; repo := n;
                      full_name := o ++ "/" ++ n |}))
  /\ (forall url,
        ~ url_shape ssh_prefix url -> ~ url_shape https_prefix url ->
        parse_github_url url = None).
Proof.
  split; [reflexivity|]. split; [reflexivity|]. split; [reflexivity|].
  split.
  - intros prefix o n Hp Ho1 Ho2 Hn1 Hn2. split.
    + apply parse_github_url_shape; trivial.
      * unfold url_tail. auto.
      * intros n1 n2 _ _ H2. now apply url_tail_not_before_git.
    + intros Hgit.
      rewrite <- (append_nil_r n) at 1.
      apply parse_github_url_shape; trivial.
      * unfold url_tail. auto.
      * intros n1 n2 E _ H2. now apply (url_tail_not_inside n n1 n2).
  - apply parse_github_url_none.
Qed.

Lemma parse_github_url_strips_git_suffix_witness :
  parse_github_url ("https://github.com/" ++ "acme" ++ "/" ++ "widget" ++ ".git")
  = Some {| owner := "acme"; repo := "widget";
            full_name := "acme" ++ "/" ++ "widget" |}.
Proof.
  refine (proj1 (proj1 (proj2 (proj2 (proj2
            parse_github_url_strips_git_suffix)))
          https_prefix "acme" "widget" _ _ _ _ _)).
  - right. reflexivity.
  - discriminate.
  - reflexivity.
  - discriminate.
  - reflexivity.
Defined.

(** C9. A URL with more than two path segments is accepted: everything
    after the owner becomes the name, so the name may contain [/]; the
    owner never does. *)
Theorem parse_github_url_name_may_contain_slash :
  parse_github_url "https://github.com/a/b/c"
  = Some {| owner := "a"; repo := "b/c"; full_name := "a/b/c" |}
  /\ parse_github_url "git@github.com:a/b/c"
     = Some {| owner := "a"; repo := "b/c"; full_name := "a/b/c" |}
  /\ (forall prefix o n,
        supported_prefix prefix ->
        o <> "" -> PyStr.contains "/" o = false ->
        n <> "" -> PyStr.contains newline n = false ->
        PyStr.endswith n ".git" = false ->
        PyStr.contains "/" n = true ->
        parse_github_url (prefix ++ o ++ "/" ++ n)
        = Some {| owner := o; repo := n; full_name := o ++ "/" ++ n |})
  /\ (forall url r,
        parse_github_url url = Some r ->
        PyStr.contains "/" (owner r) = false).
Proof.
  split; [reflexivity|]. split; [reflexivity|]. split.
  - intros prefix o n Hp Ho1 Ho2 Hn1 Hn2 Hgit _.
    rewrite <- (append_nil_r n) at 1.
    apply parse_github_url_shape; trivial.
    + unfold url_tail. auto.
    + intros n1 n2 E _ H2. now apply (url_tail_not_inside n n1 n2).
  - intros url r H.
    apply parse_github_url_inv in H as (prefix & t & _ & _ & _ & H & _).
    exact H.
Qed.

Lemma parse_github_url_name_may_contain_slash_witness :
  parse_github_url ("git@github.com:" ++ "a" ++ "/" ++ "b/c/d")
  = Some {| owner := "a"; repo := "b/c/d";
            full_name := "a" ++ "/" ++ "b/c/d" |}.
Proof.
  refine (proj1 (proj2 (proj2 parse_github_url_name_may_contain_slash))
            ssh_prefix "a" "b/c/d" _ _ _ _ _ _ _).
  - left. reflexivity.
  - discriminate.
  - reflexivity.
  - discriminate.
  - reflexivity.
  - reflexivity.
  - reflexivity.
Defined.

End ParseGithubUrl.

(** ** The file system and the scan *)

Module FsFacts.
Import Fs.

Lemma resolve_app (n : node) (p q : path) :
  resolve n (p ++ q)%list
  = match resolve n p with Some m => resolve m q | None => None end.
Proof.
  revert n. induction p as [|name p IH]; intros n; simpl; [reflexivity|].
  destruct n as [|entries]; [reflexivity|].
  destruct (lookup_entry name entries); [apply IH | reflexivity].
Qed.

Lemma lookup_entry_In {A : Type} name (entries : list (string * A)) x :
  lookup_entry name entries = Some x -> In (name, x) entries.
Proof.
  induction entries as [|[n y] entries IH]; simpl; [discriminate|].
  destruct (String.eqb_spec n name) as [-> |].
  - intros [= ->]. now left.
  - intros H. right. now apply IH.
Qed.

Lemma In_lookup_entry {A : Type} name (entries : list (string * A)) x :
  In (name, x) entries -> exists y, lookup_entry name entries = Some y.
Proof.
  induction entries as [|[n y] entries IH]; simpl; [contradiction|].
  intros [[= -> ->] | H].
  - rewrite String.eqb_refl. now exists x.
  - destruct (String.eqb n name); [now exists y | now apply IH].
Qed.

Lemma lookup_entry_map {A B : Type} (f : A -> B) name
    (entries : list (string * A)) :
  lookup_entry name (map (fun '(n, x) => (n, f x)) entries)
  = option_map f (lookup_entry name entries).
Proof.
  induction entries as [|[n y] entries IH]; simpl; [reflexivity|].
  now destruct (String.eqb n name).
Qed.

(** The walk of a directory, with the recursion on the entry a name
    resolves to. *)
Lemma walk_Dir {S : Type} body entries root (s : S) :
  walk body (Dir entries) root s
  = fold_left
      (fun acc d =>
         match lookup_entry d entries with
         | Some child => walk body child (root ++ [d])%list acc
         | None => acc
         end)
      (fst (body root (dir_names entries) (file_names entries) s))
      (snd (body root (dir_names entries) (file_names entries) s)).
Proof.
  cbn [walk].
  destruct (body root (dir_names entries) (file_names entries) s)
    as [dirs s1].
  cbn [fst snd]. revert s1.
  induction dirs as [|d dirs IH]; intros s1; simpl; [reflexivity|].
  rewrite IH. f_equal.
  rewrite (lookup_entry_map (walk body)).
  now destruct (lookup_entry d entries).
Qed.

End FsFacts.

Section IsGitRepository.
Import Fs FsFacts GitHubRepoScanner.

Lemma is_git_repository_entry fs p :
  is_git_repository fs p = true <->
  exists entries n,
    resolve fs p = Some (Dir entries)
    /\ lookup_entry ".git" entries = Some n.
Proof.
  unfold is_git_repository, path_exists. rewrite resolve_app.
  destruct (resolve fs p) as [[|entries]|]; simpl.
  - split; [discriminate | intros (? & ? & [=] & _)].
  - destruct (lookup_entry ".git" entries) as [n|] eqn:E.
    + split; [intros _; now exists entries, n | reflexivity].
    + split; [discriminate|].
      intros (es & n & [= <-] & H). congruence.
  - split; [discriminate | intros (? & ? & [=] & _)].
Qed.

(** C8, as the code has it: the predicate holds exactly when the
    directory at the path has an entry named [.git], whether that entry
    is a directory or a file; a metadata directory is one such entry.
    The predicate is a function of the file system only. *)
Theorem is_git_repository_iff_git_entry (fs : node) (p : path) :
  (is_git_repository fs p = true <->
   exists entries n,
     resolve fs p = Some (Dir entries)
     /\ In (".git", n) entries)
  /\ (metadata_directory_exists fs p = true ->
      is_git_repository fs p = true).
Proof.
  split.
  - rewrite is_git_repository_entry. split.
    + intros (entries & n & H & E). exists entries, n.
      split; [exact H | now apply lookup_entry_In].
    + intros (entries & n & H & E).
      destruct (In_lookup_entry _ _ _ E) as [y Hy]. now exists entries, y.
  - unfold metadata_directory_exists, is_git_repository, path_exists.
    destruct (resolve fs (p ++ [".git"])%list); [reflexivity | discriminate].
Qed.

Lemma is_git_repository_iff_git_entry_witness :
  is_git_repository fs_nested ["a"; "b"] = true.
Proof.
  apply (proj2 (is_git_repository_iff_git_entry fs_nested ["a"; "b"])).
  reflexivity.
Defined.

(** C8, as the specification words it, fails: a directory holding a
    regular file named [.git] (a linked worktree or a submodule checkout)
    is reported as a repository although it has no metadata directory. *)
Lemma is_git_repository_true_for_git_file :
  is_git_repository (Dir [(".git", File)]) [] = true
  /\ metadata_directory_exists (Dir [(".git", File)]) [] = false.
Proof. split; reflexivity. Qed.

End IsGitRepository.

Module ScanFacts.
Import Fs FsFacts GitHubRepoScanner.

Section Scan.
Variable git : path -> string -> option string.
Variable fs : node.

Lemma visited_log e st :
  visited (log e st)
  = (visited st ++ match e with Yield p => [p] | _ => [] end)%list.
Proof.
  unfold visited, log. simpl. rewrite omap_app.
  destruct e; simpl; reflexivity.
Qed.

Lemma scan_step_refl r st : scan_step git fs r st st.
Proof. split; auto. Qed.

(** Steps below a directory compose into a step at the directory. *)
Lemma scan_step_trans r st1 st2 st3 :
  scan_step git fs r st1 st2 -> scan_step git fs r st2 st3 ->
  scan_step git fs r st1 st3.
Proof.
  intros [V1 R1] [V2 R2]. split.
  - intros q Hq. destruct (V2 q Hq) as [H | H]; auto.
  - intros k rec Hk. destruct (R2 k rec Hk) as [H | H]; auto.
Qed.

Lemma no_repository_above_self r : no_repository_above fs r r.
Proof.
  intros p H1 H2 Hne. destruct Hne.
  apply prefix_length_eq; [assumption|]. now apply prefix_length.
Qed.

(** Below a directory that is not a repository root, what holds from a
    child on holds from the directory on. *)
Lemma no_repository_above_child r d q :
  is_git_repository fs r = false ->
  (r ++ [d])%list `prefix_of` q ->
  no_repository_above fs (r ++ [d])%list q ->
  no_repository_above fs r q.
Proof.
  intros Hr [k ->] Hclean p [k1 ->] [k2 E] Hne.
  destruct k1 as [|x k1].
  - now rewrite app_nil_r.
  - rewrite <- !app_assoc in E. apply app_inv_head in E.
    simpl in E. injection E as -> E.
    apply Hclean; [| |assumption].
    + exists k1. now rewrite <- app_assoc.
    + exists k2. rewrite <- !app_assoc. simpl. now rewrite E.
Qed.

Lemma scan_step_child r d st st' :
  is_git_repository fs r = false ->
  scan_step git fs (r ++ [d])%list st st' -> scan_step git fs r st st'.
Proof.
  intros Hr [V R]. split.
  - intros q Hq. destruct (V q Hq) as [H | [H1 H2]]; auto. right. split.
    + now apply prefix_app_l in H1.
    + now apply (no_repository_above_child r d).
  - intros k rec Hk. destruct (R k rec Hk) as [H | (H1 & H2 & H3)]; auto.
    right. repeat split; trivial.
    + now apply prefix_app_l in H1.
    + now apply (no_repository_above_child r d).
Qed.

(** One run of the loop body. *)
Lemma scan_body_step r dirs files st :
  scan_step git fs r st (snd (scan_body git fs r dirs files st))
  /\ (is_git_repository fs r = true ->
      fst (scan_body git fs r dirs files st) = []).
Proof.
  unfold scan_body. destruct (is_git_repository fs r) eqn:Hr.
  - split; [|reflexivity]. cbn [snd].
    assert (forall st0,
               visited st0 = (visited st ++ [r])%list ->
               local_repos st0 = local_repos st ->
               forall k rec, scan_step git fs r st
                 {| local_repos := <[k := {| lr_path := r;
                                             lr_owner := lr_owner rec;
                                             lr_repo := lr_repo rec;
                                             lr_url := lr_url rec |}]>
                                     (local_repos st0);
                    scan_log := scan_log st0 |}
               /\ scan_step git fs r st st0) as Hstep.
    { intros st0 Hv Hl k rec.
      assert (forall q, q ∈ (visited st ++ [r])%list ->
                q ∈ visited st
                \/ r `prefix_of` q /\ no_repository_above fs r q) as Hq.
      { intros q [H | H%list_elem_of_singleton]%elem_of_app; auto.
        subst q. right. split; [reflexivity|].
        apply no_repository_above_self. }
      split; split.
      - unfold visited in *. simpl. rewrite Hv. exact Hq.
      - simpl. intros k' rec' H.
        destruct (decide (k = k')) as [-> | Hne].
        + rewrite lookup_insert_eq in H. injection H as <-. simpl.
          right. repeat split; trivial. apply no_repository_above_self.
        + rewrite lookup_insert_ne in H by assumption. rewrite Hl in H.
          auto.
      - rewrite Hv. exact Hq.
      - intros k' rec' H. rewrite Hl in H. auto. }
    set (st0 := log (GitRemoteGetUrl r "origin") (log (Yield r) st)).
    assert (visited st0 = (visited st ++ [r])%list) as Hv.
    { unfold st0. rewrite !visited_log. now rewrite app_nil_r. }
    assert (local_repos st0 = local_repos st) as Hl by reflexivity.
    destruct (get_remote_url git r "origin") as [url|];
      [|apply (Hstep st0 Hv Hl "" (LocalRepo r "" "" ""))].
    destruct (PyStr.truthy url);
      [|apply (Hstep st0 Hv Hl "" (LocalRepo r "" "" ""))].
    destruct (parse_github_url url) as [info|];
      [|apply (Hstep st0 Hv Hl "" (LocalRepo r "" "" ""))].
    destruct (Hstep st0 Hv Hl (full_name info)
                (LocalRepo r (owner info) (repo info) url)) as [[V R] _].
    split.
    + intros q Hq. apply V. unfold visited in *. unfold log in Hq.
      simpl in *. rewrite omap_app in Hq. simpl in Hq.
      now rewrite app_nil_r in Hq.
    + exact R.
  - split; [|discriminate]. cbn [snd]. split.
    + intros q Hq. rewrite visited_log in Hq.
      apply elem_of_app in Hq as [H | H%list_elem_of_singleton]; auto.
      subst q. right. split; [reflexivity|].
      apply no_repository_above_self.
    + intros k rec H. now left.
Qed.

(** The walk from any directory of the tree adds only directories and
    records that have no repository root above them. *)
Lemma walk_scan_step n :
  forall r st, resolve fs r = Some n ->
               scan_step git fs r st (walk (scan_body git fs) n r st).
Proof.
  induction n as [|entries IH] using node_ind; intros r st Hn.
  - apply scan_step_refl.
  - rewrite walk_Dir.
    destruct (scan_body_step r (dir_names entries) (file_names entries) st)
      as [Hbody Hclear].
    destruct (is_git_repository fs r) eqn:Hr.
    + rewrite (Hclear eq_refl). exact Hbody.
    + revert Hbody.
      generalize (snd (scan_body git fs r (dir_names entries)
                         (file_names entries) st)).
      generalize (fst (scan_body git fs r (dir_names entries)
                         (file_names entries) st)).
      intros dirs. induction dirs as [|d dirs IHd]; intros st1 H1.
      * exact H1.
      * simpl. apply IHd. apply (scan_step_trans _ _ st1); [exact H1|].
        destruct (lookup_entry d entries) as [child|] eqn:Hd;
          [|apply scan_step_refl].
        apply (scan_step_child r d); [exact Hr|].
        rewrite Forall_forall in IH.
        apply (IH (d, child)).
        -- apply list_elem_of_In. now apply lookup_entry_In.
        -- rewrite resolve_app, Hn. simpl. now rewrite Hd.
Qed.

(** What one run of the loop body adds to the directories reached, and
    which names it leaves to the walk. *)
Lemma scan_body_visited r dirs files st :
  visited (snd (scan_body git fs r dirs files st))
  = (visited st ++ [r])%list
  /\ (forall d, In d (fst (scan_body git fs r dirs files st)) -> In d dirs)
  /\ (NoDup dirs -> NoDup (fst (scan_body git fs r dirs files st))).
Proof.
  unfold scan_body. destruct (is_git_repository fs r).
  - cbn [fst snd]. split; [|split; [contradiction | constructor]].
    assert (visited (log (GitRemoteGetUrl r "origin") (log (Yield r) st))
            = (visited st ++ [r])%list) as Hv.
    { rewrite !visited_log. now rewrite app_nil_r. }
    destruct (get_remote_url git r "origin") as [url|]; [|exact Hv].
    destruct (PyStr.truthy url); [|exact Hv].
    destruct (parse_github_url url) as [info|]; [|exact Hv].
    rewrite visited_log, app_nil_r. exact Hv.
  - cbn [fst snd]. split; [apply visited_log|]. split.
    + intros d Hd. now apply List.filter_In in Hd.
    + rewrite !NoDup_ListNoDup. apply List.NoDup_filter.
Qed.

Lemma dir_names_NoDup (entries : list (string * node)) :
  NoDup (map fst entries) -> NoDup (dir_names entries).
Proof.
  unfold dir_names. induction entries as [|[name child] entries IH]; simpl.
  - constructor.
  - intros [Hname Hrest]%NoDup_cons. destruct (is_dir child); simpl; auto.
    apply NoDup_cons. split; [|auto].
    intros Hin. apply Hname. apply list_elem_of_In in Hin.
    apply list_elem_of_In. apply in_map_iff in Hin as ([n c] & E & Hin).
    apply List.filter_In in Hin as [Hin _].
    apply in_map_iff. now exists (n, c).
Qed.

Lemma prefix_snoc_inj (r q : path) d d' :
  (r ++ [d])%list `prefix_of` q -> (r ++ [d'])%list `prefix_of` q -> d = d'.
Proof.
  intros [k ->] [k' E]. rewrite <- !app_assoc in E.
  apply app_inv_head in E. now injection E.
Qed.

(** In a tree with unique names the walk reaches no directory twice. *)
Lemma walk_visited_NoDup n :
  forall r st,
    unique_names n = true ->
    exists new,
      visited (walk (scan_body git fs) n r st) = (visited st ++ new)%list
      /\ NoDup new
      /\ (forall q, q ∈ new -> r `prefix_of` q).
Proof.
  induction n as [|entries IH] using node_ind; intros r st Hu.
  - exists []. rewrite app_nil_r. repeat split; [constructor|].
    intros q Hq. inversion Hq.
  - cbn [unique_names] in Hu. apply andb_prop in Hu as [Hnames Hsub].
    apply bool_decide_eq_true_1 in Hnames.
    rewrite walk_Dir.
    destruct (scan_body_visited r (dir_names entries) (file_names entries) st)
      as (Hv & _ & Hnd).
    specialize (Hnd (dir_names_NoDup _ Hnames)). revert Hv Hnd.
    generalize (snd (scan_body git fs r (dir_names entries)
                       (file_names entries) st)).
    generalize (fst (scan_body git fs r (dir_names entries)
                       (file_names entries) st)).
    intros dirs st1 Hv Hnd.
    assert (exists new,
               visited
                 (fold_left
                    (fun acc d =>
                       match lookup_entry d entries with
                       | Some child =>
                           walk (scan_body git fs) child (r ++ [d])%list acc
                       | None => acc
                       end) dirs st1)
               = (visited st1 ++ new)%list
               /\ NoDup new
               /\ (forall q, q ∈ new ->
                     exists d, d ∈ dirs /\ (r ++ [d])%list `prefix_of` q))
      as (new & Hnew & Hnodup & Hbelow).
    { clear Hv. revert st1.
      induction dirs as [|d dirs IHd]; intros st1.
      - exists []. rewrite app_nil_r. repeat split; [constructor|].
        intros q Hq. inversion Hq.
      - apply NoDup_cons in Hnd as [Hd Hnd]. cbn [fold_left].
        assert (exists new1,
                   visited
                     match lookup_entry d entries with
                     | Some child =>
                         walk (scan_body git fs) child (r ++ [d])%list st1
                     | None => st1
                     end
                   = (visited st1 ++ new1)%list
                   /\ NoDup new1
                   /\ (forall q, q ∈ new1 -> (r ++ [d])%list `prefix_of` q))
          as (new1 & E1 & Hnd1 & Hp1).
        { destruct (lookup_entry d entries) as [child|] eqn:Hl.
          - rewrite Forall_forall in IH.
            apply lookup_entry_In in Hl.
            apply (IH (d, child)); [now apply list_elem_of_In|].
            rewrite forallb_forall in Hsub. apply (Hsub (d, child) Hl).
          - exists []. rewrite app_nil_r. repeat split; [constructor|].
            intros q Hq. inversion Hq. }
        destruct (IHd Hnd
                    match lookup_entry d entries with
                    | Some child =>
                        walk (scan_body git fs) child (r ++ [d])%list st1
                    | None => st1
                    end) as (new2 & E2 & Hnd2 & Hp2).
        exists (new1 ++ new2)%list. split; [|split].
        + now rewrite E2, E1, app_assoc.
        + apply NoDup_app. split; [exact Hnd1|]. split; [|exact Hnd2].
          intros q H1 H2. destruct (Hp2 q H2) as (d' & Hd' & Hq').
          pose proof (prefix_snoc_inj _ _ _ _ (Hp1 q H1) Hq') as <-.
          contradiction.
        + intros q [H|H]%elem_of_app.
          * exists d. split; [left | now apply Hp1].
          * destruct (Hp2 q H) as (d' & Hd' & Hq').
            exists d'. split; [now right | exact Hq']. }
    exists (r :: new). split; [|split].
    + rewrite Hnew, Hv, <- app_assoc. reflexivity.
    + apply NoDup_cons. split; [|exact Hnodup].
      intros Hr. destruct (Hbelow r Hr) as (d & _ & Hp).
      now apply prefix_snoc_not in Hp.
    + intros q [-> | Hq]%elem_of_cons; [reflexivity|].
      destruct (Hbelow q Hq) as (d & _ & Hp). now apply prefix_app_l in Hp.
Qed.

End Scan.
End ScanFacts.

Section ScanDirectory.
Import Fs FsFacts GitHubRepoScanner ScanFacts.

(** C7. Repositories are leaves of the scan.  Whatever the tree and
    whatever git answers, no directory the walk reaches lies strictly below
    a repository root, and every record of the resulting mapping is for a
    repository root with no repository root above it; in a tree whose
    directories have unique entry names no directory, so no repository
    root, is reached twice.  On the layout with a repository at [a/b] and a
    nested one at [a/b/vendor/c] the walk stops at [a/b] and the mapping
    holds [a/b]'s identity only. *)
Theorem scan_directory_repositories_are_leaves
    (git : path -> string -> option string) (fs : node) :
  (forall p q,
      q ∈ visited (scan_directory git fs) ->
      is_git_repository fs p = true -> p `prefix_of` q -> q = p)
  /\ (forall k rec,
        local_repos (scan_directory git fs) !! k = Some rec ->
        is_git_repository fs (lr_path rec) = true
        /\ forall p, p `prefix_of` lr_path rec -> p <> lr_path rec ->
                     is_git_repository fs p = false)
  /\ (unique_names fs = true -> NoDup (visited (scan_directory git fs)))
  /\ visited (scan_directory git_nested fs_nested) = [[]; ["a"]; ["a"; "b"]]
  /\ local_repos (scan_directory git_nested fs_nested)
     = {[ "acme/b" := {| lr_path := ["a"; "b"];
                         lr_owner := "acme";
                         lr_repo := "b";
                         lr_url := "git@github.com:acme/b.git" |} ]}.
Proof.
  assert (scan_step git fs [] {| local_repos := ∅; scan_log := [] |}
            (scan_directory git fs)) as [V R].
  { unfold scan_directory.
    pose proof (walk_scan_step git fs fs []
                  (log PrintScanning {| local_repos := ∅; scan_log := [] |})
                  eq_refl) as [V R].
    split.
    - intros q Hq. rewrite visited_log, app_nil_r in Hq.
      destruct (V q Hq) as [H | H]; [|now right].
      left. exact H.
    - intros k rec H. destruct (R k rec H) as [H' | H']; [|now right].
      now left. }
  split; [|split; [|split; [|split]]].
  - intros p q Hq Hp Hpq. destruct (V q Hq) as [H | [_ H]].
    + inversion H.
    + destruct (decide (p = q)) as [-> | Hne]; [reflexivity|].
      rewrite (H p) in Hp; [discriminate | apply prefix_nil | exact Hpq
                            | exact Hne].
  - intros k rec H. destruct (R k rec H) as [H' | (_ & H1 & H2)].
    + simpl in H'. rewrite lookup_empty in H'. discriminate.
    + split; [exact H2|]. intros p Hp Hne. apply H1; trivial.
      apply prefix_nil.
  - intros Hu. unfold scan_directory. rewrite visited_log, app_nil_r.
    destruct (walk_visited_NoDup git fs fs []
                (log PrintScanning {| local_repos := ∅; scan_log := [] |})
                Hu) as (new & -> & Hnew & _).
    exact Hnew.
  - vm_compute. reflexivity.
  - vm_compute. reflexivity.
Qed.

Lemma scan_directory_repositories_are_leaves_witness :
  (is_git_repository fs_nested ["a"; "b"] = true
   /\ is_git_repository fs_nested ["a"] = false)
  /\ NoDup (visited (scan_directory git_nested fs_nested)).
Proof.
  split.
  - destruct (proj1 (proj2 (scan_directory_repositories_are_leaves
                              git_nested fs_nested))
                "acme/b"
                {| lr_path := ["a"; "b"]; lr_owner := "acme"; lr_repo := "b";
                   lr_url := "git@github.com:acme/b.git" |})
      as [H1 H2].
    + vm_compute. reflexivity.
    + split; [exact H1|]. apply H2.
      * exists ["b"]. reflexivity.
      * discriminate.
  - apply (proj1 (proj2 (proj2 (scan_directory_repositories_are_leaves
                                  git_nested fs_nested)))).
    vm_compute. reflexivity.
Defined.

End ScanDirectory.

(** ** The migrator *)

Module MigratorFacts.
Import GitHubRepoScanner GitHubRepoMigrator.
Local Open Scope py_scope.

Lemma partition_forks_spec forked_repos (names : gset string) to_migrate
    skipped :
  partition_forks forked_repos names to_migrate skipped
  = ((to_migrate
        ++ filter (fun r => nameWithOwner r ∉ names) forked_repos)%list,
     (skipped
        ++ (nameWithOwner
              <$> filter (fun r => nameWithOwner r ∈ names) forked_repos))%list).
Proof.
  revert to_migrate skipped.
  induction forked_repos as [|repo rest IH]; intros to_migrate skipped.
  - simpl. now rewrite !app_nil_r.
  - cbn [partition_forks]. rewrite !filter_cons. case_bool_decide as Hin.
    + rewrite IH, decide_False by auto. rewrite decide_True by assumption.
      rewrite fmap_cons, <- app_assoc. reflexivity.
    + rewrite IH, decide_True by assumption.
      rewrite decide_False by assumption.
      rewrite <- app_assoc. reflexivity.
Qed.

Lemma compute_migration_set_spec forked_repos
    (local_repos : gmap string local_repo) :
  compute_migration_set forked_repos local_repos
  = (filter (fun r => nameWithOwner r ∉ dom local_repos) forked_repos,
     nameWithOwner
       <$> filter (fun r => nameWithOwner r ∈ dom local_repos) forked_repos).
Proof. unfold compute_migration_set. now rewrite partition_forks_spec. Qed.

Lemma observe_app a b : observe (a ++ b) = obs_app (observe a) (observe b).
Proof.
  unfold observe, obs_app, fork_requests, fork_commands, dry_run_reports,
    no_parent_reports, successful_tally, failed_tally, printed. simpl.
  now rewrite !omap_app.
Qed.

Definition observe_event (e : event) : observations := observe [e].

Lemma observe_cons e l :
  observe (e :: l) = obs_app (observe_event e) (observe l).
Proof. apply (observe_app [e] l). Qed.

Lemma obs_app_nil_l a : obs_app obs_nil a = a.
Proof. now destruct a. Qed.

Lemma obs_app_nil_r a : obs_app a obs_nil = a.
Proof. destruct a. unfold obs_app. simpl. now rewrite !app_nil_r. Qed.

Lemma obs_app_assoc a b c :
  obs_app (obs_app a b) c = obs_app a (obs_app b c).
Proof. unfold obs_app. simpl. now rewrite <- !app_assoc. Qed.

Lemma bind_print {A : Type} m (k : unit -> M A) tr :
  bind (print m) k tr = k tt (tr ++ [Print m])%list.
Proof. reflexivity. Qed.

Lemma bind_ret {A B : Type} (a : A) (k : A -> M B) tr :
  bind (ret a) k tr = k a tr.
Proof. reflexivity. Qed.

Lemma processed_all repos :
  forallb (fun r => negb (parent_is_null r)) repos = true ->
  processed repos = repos.
Proof.
  induction repos as [|r repos IH]; simpl; [reflexivity|].
  intros [Hr H]%andb_prop. destruct (parent_is_null r); [discriminate|].
  now rewrite IH.
Qed.

Lemma processed_all_inv repos :
  processed repos = repos ->
  forallb (fun r => negb (parent_is_null r)) repos = true.
Proof.
  induction repos as [|r repos IH]; simpl; [reflexivity|].
  destruct (parent_is_null r); [discriminate|]. intros [= H]. now apply IH.
Qed.

Section World.
Variable gh : list event -> list string -> string -> string + string.
Variable input_line : list event -> string -> string.
Variable json_loads : string -> list fork_record.
Variable self : migrator.

(** Closes [c tr = (res, tr ++ ?out)] once [c] has run: the events added
    are collected into one list. *)
Ltac trace_eq :=
  match goal with
  | |- ?lhs = _ =>
      let X := fresh "X" in
      let E := fresh "E" in
      remember lhs as X eqn:E;
      unfold print, emit, ret in E;
      repeat (rewrite <- app_assoc in E; simpl in E);
      subst X; reflexivity
  end.

Lemma get_forked_repositories_spec tr :
  exists forked_repos out,
    get_forked_repositories gh json_loads self tr
    = (Ok forked_repos, (tr ++ out)%list)
    /\ observe out = obs_nil.
Proof.
  unfold get_forked_repositories, bind, print, emit, run_gh_command, ret.
  destruct (gh _ _ _) as [stdout | stderr]; simpl.
  - destruct (PyStr.truthy stdout); simpl;
      eexists _, _; (split; [trace_eq | reflexivity]).
  - eexists _, _. split; [trace_eq | reflexivity].
Qed.

Lemma skipped_lines_spec (local_repos : gmap string local_repo) names tr :
  (forall n, n ∈ names -> is_Some (local_repos !! n)) ->
  exists out,
    for_each names
      (fun repo_name =>
         match local_repos !! repo_name with
         | Some r => print (MsgSkippedLocal repo_name (lr_path r))
         | None => raise KeyError
         end) tr
    = (Ok tt, (tr ++ out)%list)
    /\ observe out = obs_nil.
Proof.
  revert tr. induction names as [|n names IH]; intros tr Hin.
  - exists []. split; [simpl; unfold ret; now rewrite app_nil_r | reflexivity].
  - destruct (Hin n) as [r Hr]; [left|].
    cbn [for_each]. unfold bind at 1. rewrite Hr.
    change (print (MsgSkippedLocal n (lr_path r)) tr)
      with (Ok tt, (tr ++ [Print (MsgSkippedLocal n (lr_path r))])%list).
    lazy beta iota.
    destruct (IH (tr ++ [Print (MsgSkippedLocal n (lr_path r))])%list)
      as (out & E & Hout).
    { intros m Hm. apply Hin. now right. }
    rewrite E. eexists. split; [trace_eq|].
    rewrite observe_cons, Hout. reflexivity.
Qed.

Lemma report_summary_spec (local_repos : gmap string local_repo)
    forked_repos tr :
  exists out,
    report_summary local_repos forked_repos
      (fst (compute_migration_set forked_repos local_repos))
      (snd (compute_migration_set forked_repos local_repos)) tr
    = (Ok tt, (tr ++ out)%list)
    /\ observe out = obs_nil.
Proof.
  rewrite compute_migration_set_spec. cbn [fst snd].
  set (skipped := nameWithOwner <$> filter _ forked_repos).
  assert (forall n, n ∈ skipped -> is_Some (local_repos !! n)) as Hin.
  { intros n (r & -> & Hr)%list_elem_of_fmap.
    apply list_elem_of_filter in Hr as [Hr _]. now apply elem_of_dom. }
  unfold report_summary. repeat (rewrite bind_print; cbv beta).
  clearbody skipped. destruct skipped as [|n names].
  - unfold ret. eexists. split; [trace_eq | reflexivity].
  - rewrite bind_print. cbv beta. unfold bind at 1.
    match goal with
    | |- context [for_each _ _ ?t] =>
        destruct (skipped_lines_spec local_repos (n :: names) t Hin)
          as (out & -> & Hout)
    end.
    eexists. split; [trace_eq|].
    rewrite !observe_cons, observe_app, Hout. reflexivity.
Qed.

Lemma fork_repository_spec repo_full_name dry_run tr :
  exists ok out,
    fork_repository gh self repo_full_name dry_run tr
    = (Ok ok, (tr ++ out)%list)
    /\ observe out
       = {| obs_requests := [repo_full_name];
            obs_commands := if dry_run then [] else [repo_full_name];
            obs_dry_runs := if dry_run then [repo_full_name] else [];
            obs_no_parent := []; obs_successful := []; obs_failed := [] |}
    /\ (dry_run = true -> ok = true).
Proof.
  unfold fork_repository, bind, print, emit, run_gh_command, ret.
  destruct dry_run.
  - eexists _, _. split; [trace_eq|]. split; reflexivity.
  - destruct (gh _ _ _) as [stdout | stderr]; simpl.
    + destruct (PyStr.truthy stdout); simpl;
        eexists _, _; (split; [trace_eq|]); (split; [reflexivity|]);
        discriminate.
    + eexists _, _. split; [trace_eq|]. split; [reflexivity | discriminate].
Qed.

Lemma loop_observations_nil dry_run : loop_observations dry_run [] = obs_nil.
Proof. now destruct dry_run. Qed.

Lemma attempts_cons repo repos :
  omap resolvable_parent (repo :: repos)
  = match resolvable_parent repo with
    | Some name => name :: omap resolvable_parent repos
    | None => omap resolvable_parent repos
    end.
Proof. reflexivity. Qed.

(** The three ways an iteration of the loop can go. *)
Lemma get_parent_cases repo :
  (parent_is_null repo = true /\ get_parent repo = raise AttributeError)
  \/ (parent_is_null repo = false
      /\ exists name,
           resolvable_parent repo = Some name
           /\ get_parent repo = ret (Some name)
           /\ truthy (Some name) = true)
  \/ (parent_is_null repo = false
      /\ resolvable_parent repo = None
      /\ exists v, get_parent repo = ret v /\ truthy v = false).
Proof.
  unfold parent_is_null, resolvable_parent, get_parent.
  destruct (parent repo) as [| |[name|]].
  - right. right. repeat split. now exists None.
  - left. split; reflexivity.
  - simpl. destruct (PyStr.truthy name) eqn:Hname.
    + right. left. split; [reflexivity|]. exists name. simpl. auto.
    + right. right. repeat split. exists (Some name). simpl. auto.
  - right. right. repeat split. now exists None.
Qed.

Lemma loop_observations_attempt dry_run repo repos name :
  resolvable_parent repo = Some name ->
  loop_observations dry_run (repo :: repos)
  = obs_app
      {| obs_requests := [name];
         obs_commands := if dry_run then [] else [name];
         obs_dry_runs := if dry_run then [name] else [];
         obs_no_parent := []; obs_successful := []; obs_failed := [] |}
      (loop_observations dry_run repos).
Proof.
  intros H. unfold loop_observations, obs_app, without_parent. simpl.
  rewrite H. now destruct dry_run.
Qed.

Lemma loop_observations_skip dry_run repo repos :
  resolvable_parent repo = None ->
  loop_observations dry_run (repo :: repos)
  = obs_app (Obs [] [] [] [nameWithOwner repo] [] [])
      (loop_observations dry_run repos).
Proof.
  intros H. unfold loop_observations, obs_app, without_parent. simpl.
  rewrite H. now destruct dry_run.
Qed.

(** The loop of the migration pass: what it shows, and how the counters
    move when it is not cut short. *)
Lemma migration_loop_spec dry_run repos :
  forall successful failed tr,
  exists res out,
    migration_loop gh self dry_run repos successful failed tr
    = (res, (tr ++ out)%list)
    /\ observe out = loop_observations dry_run (processed repos)
    /\ match res with
       | Ok (successful', failed') =>
           processed repos = repos
           /\ successful' + failed'
              = successful + failed + length (omap resolvable_parent repos)
           /\ (dry_run = true -> failed' = failed)
       | Raise e => e = AttributeError /\ processed repos <> repos
       end.
Proof.
  induction repos as [|repo rest IH]; intros successful failed tr.
  - exists (Ok (successful, failed)), []. simpl. unfold ret.
    rewrite app_nil_r, loop_observations_nil. repeat split; lia.
  - cbn [migration_loop processed].
    destruct (get_parent_cases repo)
      as [[Hnull ->] | [(Hnull & name & Hres & -> & Htruthy)
                       | (Hnull & Hres & v & -> & Htruthy)]];
      rewrite Hnull.
    + exists (Raise AttributeError), []. unfold bind, raise.
      rewrite app_nil_r, loop_observations_nil. repeat split. discriminate.
    + rewrite bind_ret, Htruthy.
      change (default "" (Some name)) with name. unfold bind at 1.
      destruct (fork_repository_spec name dry_run tr)
        as (ok & out1 & -> & Hout1 & Hok).
      assert (exists s1 f1,
                 (if ok
                  then migration_loop gh self dry_run rest (S successful)
                         failed
                  else migration_loop gh self dry_run rest successful
                         (S failed))
                 = migration_loop gh self dry_run rest s1 f1
                 /\ s1 + f1 = S (successful + failed)
                 /\ (dry_run = true -> f1 = failed))
        as (s1 & f1 & -> & Hsum1 & Hdry1).
      { destruct ok; eexists _, _; (split; [reflexivity|]).
        - split; [lia | reflexivity].
        - split; [lia|]. intros H. now specialize (Hok H). }
      destruct (IH s1 f1 (tr ++ out1)%list) as (res & out & -> & Hout & Hpost).
      exists res, (out1 ++ out)%list. split; [now rewrite app_assoc|]. split.
      * rewrite observe_app, Hout1, Hout.
        now rewrite (loop_observations_attempt _ _ _ name).
      * destruct res as [[s' f']|e].
        -- destruct Hpost as (-> & Hsum & Hdry).
           rewrite attempts_cons, Hres. cbn [length].
           repeat split; [lia|]. intros H. rewrite (Hdry H). now apply Hdry1.
        -- destruct Hpost as [-> Hne]. split; congruence.
    + rewrite bind_ret, Htruthy, bind_print.
      destruct (IH successful failed
                  (tr ++ [Print (MsgNoParent (nameWithOwner repo))])%list)
        as (res & out & -> & Hout & Hpost).
      exists res, (Print (MsgNoParent (nameWithOwner repo)) :: out).
      split; [now rewrite <- app_assoc|]. split.
      * rewrite observe_cons, Hout.
        now rewrite loop_observations_skip.
      * destruct res as [[s' f']|e].
        -- destruct Hpost as (-> & Hsum & Hdry).
           rewrite attempts_cons, Hres. repeat split; assumption.
        -- destruct Hpost as [-> Hne]. split; congruence.
Qed.

(** The pass itself: it starts, runs the loop and, unless the loop was cut
    short, prints the tally. *)
Lemma perform_migration_spec dry_run repos tr :
  exists res out,
    perform_migration gh self dry_run repos tr
    = (res, (tr ++ Print MsgStarting :: out)%list)
    /\ match res with
       | Ok _ =>
           processed repos = repos
           /\ exists successful failed,
               successful + failed = length (omap resolvable_parent repos)
               /\ (dry_run = true -> failed = 0)
               /\ observe out
                  = obs_app (loop_observations dry_run repos)
                      {| obs_requests := []; obs_commands := [];
                         obs_dry_runs := []; obs_no_parent := [];
                         obs_successful := [successful];
                         obs_failed := if (0 <? failed)%nat then [failed]
                                       else [] |}
       | Raise e =>
           e = AttributeError /\ processed repos <> repos
           /\ observe out = loop_observations dry_run (processed repos)
       end.
Proof.
  unfold perform_migration. rewrite bind_print. unfold bind at 1.
  destruct (migration_loop_spec dry_run repos 0 0
              (tr ++ [Print MsgStarting])%list)
    as (res & out & -> & Hout & Hpost).
  destruct res as [[successful failed]|e].
  - destruct Hpost as (Hall & Hsum & Hdry). rewrite Hall in Hout.
    rewrite !bind_print. destruct (0 <? failed)%nat eqn:Hf.
    + exists (Ok tt),
        (out ++ [Print MsgComplete; Print (MsgSuccessful successful);
                 Print (MsgFailed failed)])%list.
      split; [trace_eq|]. split; [exact Hall|].
      exists successful, failed. rewrite Hf.
      repeat split; [lia | intros H; rewrite (Hdry H); reflexivity|].
      now rewrite observe_app, Hout.
    + exists (Ok tt),
        (out ++ [Print MsgComplete; Print (MsgSuccessful successful)])%list.
      split; [trace_eq|]. split; [exact Hall|].
      exists successful, failed. rewrite Hf.
      repeat split; [lia | intros H; rewrite (Hdry H); reflexivity|].
      now rewrite observe_app, Hout.
  - destruct Hpost as [-> Hne]. exists (Raise AttributeError), out.
    split; [trace_eq|]. auto.
Qed.

Lemma confirm_and_migrate_cancelled repos tr :
  repos <> [] ->
  (forall tr', affirmative (input_line tr' confirm_prompt) = false) ->
  confirm_and_migrate gh input_line self false repos tr
  = (Ok tt,
     (tr ++ [Print (MsgAboutToMigrate (length repos) (target_username self));
             Input confirm_prompt; Print MsgCancelled])%list).
Proof.
  intros Hne Hno. destruct repos as [|repo rest]; [congruence|].
  unfold confirm_and_migrate. rewrite bind_print. unfold bind, input.
  rewrite Hno. trace_eq.
Qed.

Lemma confirm_and_migrate_proceeds dry_run repos tr :
  repos <> [] ->
  dry_run = true
  \/ (forall tr', affirmative (input_line tr' confirm_prompt) = true) ->
  exists pre,
    observe pre = obs_nil
    /\ confirm_and_migrate gh input_line self dry_run repos tr
       = perform_migration gh self dry_run repos (tr ++ pre)%list.
Proof.
  intros Hne Hgo. destruct repos as [|repo rest]; [congruence|].
  unfold confirm_and_migrate. destruct dry_run.
  - exists []. now rewrite app_nil_r.
  - destruct Hgo as [|Hyes]; [discriminate|].
    rewrite bind_print. unfold bind, input. rewrite Hyes.
    exists [Print (MsgAboutToMigrate (length (repo :: rest))
                     (target_username self));
            Input confirm_prompt].
    split; [reflexivity|]. now rewrite <- app_assoc.
Qed.

(** A run, up to the decision whether to migrate. *)
Lemma run_spec (local_repos : gmap string local_repo) dry_run :
  exists pre,
    observe pre = obs_nil
    /\ run gh input_line json_loads self local_repos dry_run
       = match listed_forks gh json_loads self with
         | [] => (Ok tt, (pre ++ [Print MsgNoForks])%list)
         | _ :: _ =>
             confirm_and_migrate gh input_line self dry_run
               (candidates gh json_loads self local_repos) pre
         end.
Proof.
  unfold run, migrate_repositories, candidates, listed_forks.
  destruct (get_forked_repositories_spec []) as (forks & out & E & Hout).
  unfold bind at 1. rewrite E. cbn [app].
  destruct forks as [|repo rest].
  - exists out. split; [exact Hout | reflexivity].
  - set (forks := repo :: rest).
    rewrite (surjective_pairing (compute_migration_set forks local_repos)).
    unfold bind at 1.
    destruct (report_summary_spec local_repos forks out)
      as (out2 & -> & Hout2).
    exists (out ++ out2)%list. split; [|reflexivity].
    now rewrite observe_app, Hout, Hout2.
Qed.

Lemma candidates_listed (local_repos : gmap string local_repo) :
  candidates gh json_loads self local_repos <> [] ->
  listed_forks gh json_loads self <> [].
Proof.
  unfold candidates. intros H E. rewrite E in H. now apply H.
Qed.

(** A run that reaches the pass. *)
Lemma run_proceeds (local_repos : gmap string local_repo) dry_run :
  candidates gh json_loads self local_repos <> [] ->
  dry_run = true
  \/ (forall tr, affirmative (input_line tr confirm_prompt) = true) ->
  exists pre,
    observe pre = obs_nil
    /\ run gh input_line json_loads self local_repos dry_run
       = perform_migration gh self dry_run
           (candidates gh json_loads self local_repos) pre.
Proof.
  intros Hne Hgo. destruct (run_spec local_repos dry_run) as (pre & Hpre & ->).
  pose proof (candidates_listed local_repos Hne) as Hl.
  destruct (listed_forks gh json_loads self) as [|repo rest]; [congruence|].
  destruct (confirm_and_migrate_proceeds dry_run _ pre Hne Hgo)
    as (pre2 & Hpre2 & ->).
  exists (pre ++ pre2)%list. split; [|reflexivity].
  now rewrite observe_app, Hpre, Hpre2.
Qed.

(** A run that is declined at the prompt. *)
Lemma run_cancelled (local_repos : gmap string local_repo) :
  (forall tr, affirmative (input_line tr confirm_prompt) = false) ->
  exists tr,
    run gh input_line json_loads self local_repos false = (Ok tt, tr)
    /\ observe tr = obs_nil
    /\ (candidates gh json_loads self local_repos <> [] ->
        last tr = Some (Print MsgCancelled)).
Proof.
  intros Hno. destruct (run_spec local_repos false) as (pre & Hpre & ->).
  destruct (listed_forks gh json_loads self) as [|repo rest] eqn:Hl.
  - eexists. split; [reflexivity|]. split.
    + now rewrite observe_app, Hpre.
    + intros H. apply candidates_listed in H. congruence.
  - destruct (candidates gh json_loads self local_repos) as [|c cs] eqn:Hc.
    + eexists. split; [reflexivity|]. split; [|congruence].
      now rewrite observe_app, Hpre.
    + rewrite confirm_and_migrate_cancelled by (congruence || assumption).
      eexists. split; [reflexivity|]. split.
      * now rewrite observe_app, Hpre.
      * intros _.
        change [Print (MsgAboutToMigrate (length (c :: cs))
                         (target_username self));
                Input confirm_prompt; Print MsgCancelled]
          with ([Print (MsgAboutToMigrate (length (c :: cs))
                          (target_username self));
                 Input confirm_prompt] ++ [Print MsgCancelled])%list.
        now rewrite !app_assoc, last_snoc.
Qed.

(** A run with no candidate does nothing that is observed. *)
Lemma run_nothing (local_repos : gmap string local_repo) dry_run :
  candidates gh json_loads self local_repos = [] ->
  exists tr,
    run gh input_line json_loads self local_repos dry_run = (Ok tt, tr)
    /\ observe tr = obs_nil.
Proof.
  intros Hc. destruct (run_spec local_repos dry_run) as (pre & Hpre & ->).
  rewrite Hc.
  destruct (listed_forks gh json_loads self) as [|repo rest];
    (eexists; split; [reflexivity|]; now rewrite observe_app, Hpre).
Qed.

(** What a run shows once it reaches the pass. *)
Lemma run_observations (local_repos : gmap string local_repo) dry_run :
  candidates gh json_loads self local_repos <> [] ->
  dry_run = true
  \/ (forall tr, affirmative (input_line tr confirm_prompt) = true) ->
  exists res tr,
    run gh input_line json_loads self local_repos dry_run = (res, tr)
    /\ Print MsgStarting ∈ tr
    /\ match res with
       | Ok _ =>
           processed (candidates gh json_loads self local_repos)
           = candidates gh json_loads self local_repos
           /\ exists successful failed,
               successful + failed
               = length (omap resolvable_parent
                           (candidates gh json_loads self local_repos))
               /\ (dry_run = true -> failed = 0)
               /\ observe tr
                  = obs_app
                      (loop_observations dry_run
                         (candidates gh json_loads self local_repos))
                      {| obs_requests := []; obs_commands := [];
                         obs_dry_runs := []; obs_no_parent := [];
                         obs_successful := [successful];
                         obs_failed := if (0 <? failed)%nat then [failed]
                                       else [] |}
       | Raise e =>
           e = AttributeError
           /\ processed (candidates gh json_loads self local_repos)
              <> candidates gh json_loads self local_repos
           /\ observe tr
              = loop_observations dry_run
                  (processed (candidates gh json_loads self local_repos))
       end.
Proof.
  intros Hne Hgo.
  destruct (run_proceeds local_repos dry_run Hne Hgo) as (pre & Hpre & ->).
  destruct (perform_migration_spec dry_run
              (candidates gh json_loads self local_repos) pre)
    as (res & out & -> & Hpost).
  exists res, (pre ++ Print MsgStarting :: out)%list.
  split; [reflexivity|]. split.
  { apply elem_of_app. right. left. }
  rewrite observe_app, Hpre, obs_app_nil_l, observe_cons.
  change (observe_event (Print MsgStarting)) with obs_nil.
  rewrite obs_app_nil_l. exact Hpost.
Qed.

End World.
End MigratorFacts.

Section MigrationSet.
Import GitHubRepoScanner GitHubRepoMigrator MigratorFacts.

(** C2. The partition of the listed forks: the candidates are the records
    whose identity is not a key of the local mapping, in listing order; the
    skipped identities are those of the other records, in listing order;
    together they account for every listed fork.  The function is pure: it
    returns the two lists and has no access to the trace.  With forks
    [a; b; c] and [b] found locally, the candidates are [a; c] and [b] is
    skipped. *)
Theorem compute_migration_set_partitions
    (forked_repos : list fork_record)
    (local_repos : gmap string local_repo) :
  fst (compute_migration_set forked_repos local_repos)
  = filter (fun r => nameWithOwner r ∉ dom local_repos) forked_repos
  /\ snd (compute_migration_set forked_repos local_repos)
     = nameWithOwner
         <$> filter (fun r => nameWithOwner r ∈ dom local_repos) forked_repos
  /\ fst (compute_migration_set forked_repos local_repos)
     `sublist_of` forked_repos
  /\ nameWithOwner <$> forked_repos
     ≡ₚ ((nameWithOwner
            <$> fst (compute_migration_set forked_repos local_repos))
         ++ snd (compute_migration_set forked_repos local_repos))%list
  /\ compute_migration_set [fork_a; fork_b; fork_c] local_b
     = ([fork_a; fork_c], ["alice/b"]).
Proof.
  rewrite compute_migration_set_spec. cbn [fst snd].
  split; [reflexivity|]. split; [reflexivity|]. split; [|split].
  - apply sublist_filter.
  - rewrite <- fmap_app. apply fmap_Permutation.
    rewrite Permutation_app_comm. symmetry.
    apply (filter_app_complement
             (fun r => nameWithOwner r ∈ dom local_repos)).
  - vm_compute. reflexivity.
Qed.

End MigrationSet.

Section Confirmation.
Import GitHubRepoScanner GitHubRepoMigrator MigratorFacts.

Lemma lower_char_y c :
  PyStr.lower_char c = "y"%char -> c = "y"%char \/ c = "Y"%char.
Proof.
  destruct c as [[] [] [] [] [] [] [] []]; vm_compute; intros H;
    try discriminate H; auto.
Qed.

Lemma affirmative_iff confirm :
  affirmative confirm = true <-> confirm = "y" \/ confirm = "Y".
Proof.
  unfold affirmative. rewrite String.eqb_eq. split.
  - destruct confirm as [|c [|d rest]]; simpl; try discriminate.
    intros [= H]. destruct (lower_char_y c H) as [-> | ->]; auto.
  - intros [-> | ->]; reflexivity.
Qed.

(** C10. Only [y] and [Y] are affirmative; [yes] is not.  At the prompt
    (a run that is not a dry run and has a candidate) any other answer ends
    the run with the cancellation line and nothing forked, and [y] or [Y]
    starts the pass. *)
Theorem only_y_confirms :
  (forall confirm,
      affirmative confirm = true <-> confirm = "y" \/ confirm = "Y")
  /\ affirmative "yes" = false
  /\ (forall gh input_line json_loads self local_repos,
        candidates gh json_loads self local_repos <> [] ->
        (forall tr, input_line tr confirm_prompt <> "y"
                    /\ input_line tr confirm_prompt <> "Y") ->
        fst (run gh input_line json_loads self local_repos false) = Ok tt
        /\ last (snd (run gh input_line json_loads self local_repos false))
           = Some (Print MsgCancelled)
        /\ fork_requests
             (snd (run gh input_line json_loads self local_repos false))
           = [])
  /\ (forall gh input_line json_loads self local_repos,
        candidates gh json_loads self local_repos <> [] ->
        (forall tr, input_line tr confirm_prompt = "y"
                    \/ input_line tr confirm_prompt = "Y") ->
        Print MsgStarting
        ∈ snd (run gh input_line json_loads self local_repos false)).
Proof.
  split; [exact affirmative_iff|]. split; [reflexivity|]. split.
  - intros gh input_line json_loads self local_repos Hne Hno.
    destruct (run_cancelled gh input_line json_loads self local_repos)
      as (tr & -> & Hobs & Hlast).
    { intros tr. destruct (affirmative _) eqn:E; [|reflexivity].
      apply affirmative_iff in E. destruct (Hno tr). tauto. }
    cbn [fst snd]. split; [reflexivity|]. split; [now apply Hlast|].
    apply (f_equal obs_requests) in Hobs. exact Hobs.
  - intros gh input_line json_loads self local_repos Hne Hyes.
    destruct (run_observations gh input_line json_loads self local_repos
                false Hne) as (res & tr & -> & Hstart & _).
    { right. intros tr. now apply affirmative_iff. }
    exact Hstart.
Qed.

Lemma only_y_confirms_witness :
  last (snd (run gh_succeeds (fun _ _ => "yes") (fun _ => [fork_a])
               alice_to_bob ∅ false))
  = Some (Print MsgCancelled).
Proof.
  refine (proj1 (proj2 (proj1 (proj2 (proj2 only_y_confirms))
                          gh_succeeds (fun _ _ => "yes") (fun _ => [fork_a])
                          alice_to_bob ∅ _ _))).
  - vm_compute. discriminate.
  - intros tr. split; discriminate.
Defined.

(** C5, as the code has it.  When the run is not a dry run and the answer
    at the prompt is not affirmative, the run returns normally with no
    create-fork command, no call of [fork_repository] and no tally line at
    all; when there was a candidate, its last line is the cancellation. *)
Theorem declined_confirmation_cancels
    gh input_line json_loads self (local_repos : gmap string local_repo) :
  (forall tr, affirmative (input_line tr confirm_prompt) = false) ->
  fst (run gh input_line json_loads self local_repos false) = Ok tt
  /\ fork_commands (snd (run gh input_line json_loads self local_repos false))
     = []
  /\ fork_requests (snd (run gh input_line json_loads self local_repos false))
     = []
  /\ successful_tally
       (snd (run gh input_line json_loads self local_repos false)) = []
  /\ failed_tally
       (snd (run gh input_line json_loads self local_repos false)) = []
  /\ (candidates gh json_loads self local_repos <> [] ->
      last (snd (run gh input_line json_loads self local_repos false))
      = Some (Print MsgCancelled)).
Proof.
  intros Hno.
  destruct (run_cancelled gh input_line json_loads self local_repos Hno)
    as (tr & -> & Hobs & Hlast).
  cbn [fst snd]. split; [reflexivity|].
  split; [exact (f_equal obs_commands Hobs)|].
  split; [exact (f_equal obs_requests Hobs)|].
  split; [exact (f_equal obs_successful Hobs)|].
  split; [exact (f_equal obs_failed Hobs) | exact Hlast].
Qed.

Lemma declined_confirmation_cancels_witness :
  last (snd (run gh_succeeds (fun _ _ => "n") (fun _ => [fork_a])
               alice_to_bob ∅ false))
  = Some (Print MsgCancelled).
Proof.
  refine (proj2 (proj2 (proj2 (proj2 (proj2
            (declined_confirmation_cancels gh_succeeds (fun _ _ => "n")
               (fun _ => [fork_a]) alice_to_bob ∅ _))))) _).
  - intros tr. reflexivity.
  - vm_compute. discriminate.
Defined.

(** C5, as the specification words it, fails: a declined run prints the
    cancellation and stops; no tally is shown, with zeros or otherwise. *)
Lemma declined_confirmation_prints_no_tally :
  run gh_succeeds (fun _ _ => "n") (fun _ => [fork_a]) alice_to_bob ∅ false
  = (Ok tt,
     [Print (MsgFetching "alice");
      Subprocess
        ["gh"; "repo"; "list"; "alice"; "--fork"; "--json";
         "name,nameWithOwner,isFork,parent,url"; "--limit"; "1000"]
        "source-token";
      Print (MsgFoundForks 1); Print MsgSummaryHeader;
      Print (MsgTotalForked 1); Print (MsgToMigrate 1);
      Print (MsgSkippedCount 0); Print (MsgAboutToMigrate 1 "bob");
      Input "Continue? [y/N]: "; Print MsgCancelled])
  /\ successful_tally
       (snd (run gh_succeeds (fun _ _ => "n") (fun _ => [fork_a])
               alice_to_bob ∅ false))
     = [].
Proof. split; vm_compute; reflexivity. Qed.

End Confirmation.

Section MigrationPass.
Import GitHubRepoScanner GitHubRepoMigrator MigratorFacts.

(** The calls of [fork_repository] of a run that reaches the pass are, in
    listing order, for the parent identities of the candidates the loop gets
    through; in a real run each call starts [gh repo fork] on that
    identity. *)
Lemma fork_requests_in_listing_order
    gh input_line json_loads self (local_repos : gmap string local_repo)
    dry_run :
  candidates gh json_loads self local_repos <> [] ->
  dry_run = true
  \/ (forall tr, affirmative (input_line tr confirm_prompt) = true) ->
  fork_requests (snd (run gh input_line json_loads self local_repos dry_run))
  = omap resolvable_parent
      (processed (candidates gh json_loads self local_repos))
  /\ fork_commands
       (snd (run gh input_line json_loads self local_repos dry_run))
     = if dry_run then []
       else omap resolvable_parent
              (processed (candidates gh json_loads self local_repos)).
Proof.
  intros Hne Hgo.
  destruct (run_observations gh input_line json_loads self local_repos
              dry_run Hne Hgo) as (res & tr & -> & _ & Hpost).
  cbn [snd]. destruct res as [[]|e].
  - destruct Hpost as (-> & s & f & _ & _ & Hobs). split.
    + apply (f_equal obs_requests) in Hobs. simpl in Hobs.
      now rewrite app_nil_r in Hobs.
    + apply (f_equal obs_commands) in Hobs. simpl in Hobs.
      now rewrite app_nil_r in Hobs.
  - destruct Hpost as (_ & _ & Hobs). split.
    + exact (f_equal obs_requests Hobs).
    + exact (f_equal obs_commands Hobs).
Qed.

(** C3.  The loop does fork from the parent identity, in listing order, but
    only as far as it gets: on the listing [gone; a], where the parent of
    [gone] is JSON null and [a] has the parent [upstream/a], the confirmed
    run raises [AttributeError] at the first candidate and never calls
    [fork_repository] for [upstream/a]. *)
Theorem migration_pass_aborts_on_null_parent :
  run gh_succeeds (fun _ _ => "y") (fun _ => [fork_null; fork_a])
    alice_to_bob ∅ false
  = (Raise AttributeError,
     [Print (MsgFetching "alice");
      Subprocess
        ["gh"; "repo"; "list"; "alice"; "--fork"; "--json";
         "name,nameWithOwner,isFork,parent,url"; "--limit"; "1000"]
        "source-token";
      Print (MsgFoundForks 2); Print MsgSummaryHeader;
      Print (MsgTotalForked 2); Print (MsgToMigrate 2);
      Print (MsgSkippedCount 0); Print (MsgAboutToMigrate 2 "bob");
      Input "Continue? [y/N]: "; Print MsgStarting])
  /\ omap resolvable_parent
       (candidates gh_succeeds (fun _ => [fork_null; fork_a]) alice_to_bob ∅)
     = ["upstream/a"]
  /\ fork_requests
       (snd (run gh_succeeds (fun _ _ => "y") (fun _ => [fork_null; fork_a])
               alice_to_bob ∅ false))
     = [].
Proof. repeat split; vm_compute; reflexivity. Qed.

(** C4, as the code has it.  A dry run never starts [gh repo fork],
    whatever the input.  When there is a candidate and no candidate's parent
    is null, the run returns normally, reports a synthetic success for
    exactly the candidates that carry a parent identity, in listing order,
    and its tally shows their number as successful and no failure. *)
Theorem dry_run_forks_nothing
    gh input_line json_loads self (local_repos : gmap string local_repo) :
  fork_commands (snd (run gh input_line json_loads self local_repos true))
  = []
  /\ (candidates gh json_loads self local_repos <> [] ->
      forallb (fun r => negb (parent_is_null r))
        (candidates gh json_loads self local_repos) = true ->
      fst (run gh input_line json_loads self local_repos true) = Ok tt
      /\ dry_run_reports
           (snd (run gh input_line json_loads self local_repos true))
         = omap resolvable_parent (candidates gh json_loads self local_repos)
      /\ successful_tally
           (snd (run gh input_line json_loads self local_repos true))
         = [length (omap resolvable_parent
                      (candidates gh json_loads self local_repos))]
      /\ failed_tally
           (snd (run gh input_line json_loads self local_repos true))
         = []).
Proof.
  destruct (candidates gh json_loads self local_repos) as [|c cs] eqn:Hc.
  - destruct (run_nothing gh input_line json_loads self local_repos true Hc)
      as (tr & -> & Hobs).
    split; [exact (f_equal obs_commands Hobs) | congruence].
  - assert (candidates gh json_loads self local_repos <> []) as Hne
        by congruence.
    destruct (run_observations gh input_line json_loads self local_repos
                true Hne (or_introl eq_refl))
      as (res & tr & -> & _ & Hpost).
    rewrite Hc in Hpost. cbn [fst snd]. destruct res as [[]|e].
    + destruct Hpost as (_ & s & f & Hsum & Hdry & Hobs).
      rewrite (Hdry eq_refl) in *. split.
      { apply (f_equal obs_commands) in Hobs. exact Hobs. }
      intros _ _. split; [reflexivity|]. split; [|split].
      * apply (f_equal obs_dry_runs) in Hobs. simpl in Hobs.
        now rewrite app_nil_r in Hobs.
      * apply (f_equal obs_successful) in Hobs. simpl in Hobs.
        rewrite Hobs. f_equal. lia.
      * exact (f_equal obs_failed Hobs).
    + destruct Hpost as (_ & Hcut & Hobs). split.
      { exact (f_equal obs_commands Hobs). }
      intros _ Hall. destruct Hcut. now apply processed_all.
Qed.

Lemma dry_run_forks_nothing_witness :
  successful_tally
    (snd (run gh_succeeds (fun _ _ => "") (fun _ => [fork_a; fork_orphan])
            alice_to_bob ∅ true))
  = [length (omap resolvable_parent
               (candidates gh_succeeds (fun _ => [fork_a; fork_orphan])
                  alice_to_bob ∅))].
Proof.
  refine (proj1 (proj2 (proj2
            (proj2 (dry_run_forks_nothing gh_succeeds (fun _ _ => "")
                      (fun _ => [fork_a; fork_orphan]) alice_to_bob ∅)
               _ _)))).
  - vm_compute. discriminate.
  - vm_compute. reflexivity.
Defined.

(** C4, as the specification words it, fails: in a dry run over one
    candidate that has no parent, the candidate is not reported as a
    success and the tally shows 0, not the number of candidates. *)
Lemma dry_run_skips_candidate_without_parent :
  run gh_succeeds (fun _ _ => "") (fun _ => [fork_orphan]) alice_to_bob ∅ true
  = (Ok tt,
     [Print (MsgFetching "alice");
      Subprocess
        ["gh"; "repo"; "list"; "alice"; "--fork"; "--json";
         "name,nameWithOwner,isFork,parent,url"; "--limit"; "1000"]
        "source-token";
      Print (MsgFoundForks 1); Print MsgSummaryHeader;
      Print (MsgTotalForked 1); Print (MsgToMigrate 1);
      Print (MsgSkippedCount 0); Print MsgStarting;
      Print (MsgNoParent "alice/orphan"); Print MsgComplete;
      Print (MsgSuccessful 0)])
  /\ length (candidates gh_succeeds (fun _ => [fork_orphan]) alice_to_bob ∅)
     = 1.
Proof. split; vm_compute; reflexivity. Qed.

(** C6, as the code has it.  In a run that reaches the pass with no
    candidate whose parent is null, every candidate that has no parent key,
    or whose parent object has no non-empty name, gets the no-parent line
    and no call of [fork_repository]; the two numbers of the tally add up
    to the candidates that were attempted, so such a candidate is neither a
    success nor a failure. *)
Theorem candidate_without_parent_is_skipped
    gh input_line json_loads self (local_repos : gmap string local_repo)
    dry_run :
  candidates gh json_loads self local_repos <> [] ->
  dry_run = true
  \/ (forall tr, affirmative (input_line tr confirm_prompt) = true) ->
  forallb (fun r => negb (parent_is_null r))
    (candidates gh json_loads self local_repos) = true ->
  fst (run gh input_line json_loads self local_repos dry_run) = Ok tt
  /\ no_parent_reports
       (snd (run gh input_line json_loads self local_repos dry_run))
     = without_parent (candidates gh json_loads self local_repos)
  /\ (forall repo,
        repo ∈ candidates gh json_loads self local_repos ->
        resolvable_parent repo = None ->
        nameWithOwner repo
        ∈ no_parent_reports
            (snd (run gh input_line json_loads self local_repos dry_run)))
  /\ fork_requests
       (snd (run gh input_line json_loads self local_repos dry_run))
     = omap resolvable_parent (candidates gh json_loads self local_repos)
  /\ exists successful failed,
      successful_tally
        (snd (run gh input_line json_loads self local_repos dry_run))
      = [successful]
      /\ failed_tally
           (snd (run gh input_line json_loads self local_repos dry_run))
         = (if (0 <? failed)%nat then [failed] else [])
      /\ successful + failed
         = length (omap resolvable_parent
                     (candidates gh json_loads self local_repos)).
Proof.
  intros Hne Hgo Hall.
  destruct (run_observations gh input_line json_loads self local_repos
              dry_run Hne Hgo) as (res & tr & -> & _ & Hpost).
  cbn [fst snd]. destruct res as [[]|e].
  - destruct Hpost as (_ & s & f & Hsum & _ & Hobs).
    assert (no_parent_reports tr
            = without_parent (candidates gh json_loads self local_repos))
      as Hnp.
    { apply (f_equal obs_no_parent) in Hobs. simpl in Hobs.
      now rewrite app_nil_r in Hobs. }
    split; [reflexivity|]. split; [exact Hnp|]. split; [|split].
    + intros repo Hin Hres. rewrite Hnp. unfold without_parent.
      apply list_elem_of_omap. exists repo. now rewrite Hres.
    + apply (f_equal obs_requests) in Hobs. simpl in Hobs.
      now rewrite app_nil_r in Hobs.
    + exists s, f. split; [exact (f_equal obs_successful Hobs)|].
      split; [exact (f_equal obs_failed Hobs) | exact Hsum].
  - destruct Hpost as (_ & Hcut & _). destruct Hcut. now apply processed_all.
Qed.

Lemma candidate_without_parent_is_skipped_witness :
  no_parent_reports
    (snd (run gh_succeeds (fun _ _ => "Y")
            (fun _ => [fork_a; fork_orphan; fork_orphan2]) alice_to_bob ∅
            false))
  = without_parent
      (candidates gh_succeeds (fun _ => [fork_a; fork_orphan; fork_orphan2])
         alice_to_bob ∅).
Proof.
  refine (proj1 (proj2
            (candidate_without_parent_is_skipped gh_succeeds
               (fun _ _ => "Y")
               (fun _ => [fork_a; fork_orphan; fork_orphan2]) alice_to_bob ∅
               false _ _ _))).
  - vm_compute. discriminate.
  - right. intros tr. reflexivity.
  - vm_compute. reflexivity.
Defined.

(** C6, as the specification words it, fails: nothing counts the skipped
    candidates.  The run over [a; orphan] and the run over
    [a; orphan; orphan2] end with the same report, one successful, and no
    line of either says how many candidates had no parent. *)
Lemma no_parent_candidates_are_not_counted :
  run gh_succeeds (fun _ _ => "") (fun _ => [fork_a; fork_orphan])
    alice_to_bob ∅ true
  = (Ok tt,
     [Print (MsgFetching "alice");
      Subprocess
        ["gh"; "repo"; "list"; "alice"; "--fork"; "--json";
         "name,nameWithOwner,isFork,parent,url"; "--limit"; "1000"]
        "source-token";
      Print (MsgFoundForks 2); Print MsgSummaryHeader;
      Print (MsgTotalForked 2); Print (MsgToMigrate 2);
      Print (MsgSkippedCount 0); Print MsgStarting;
      Print (MsgDryRun "upstream/a"); Print (MsgNoParent "alice/orphan");
      Print MsgComplete; Print (MsgSuccessful 1)])
  /\ run gh_succeeds (fun _ _ => "")
       (fun _ => [fork_a; fork_orphan; fork_orphan2]) alice_to_bob ∅ true
     = (Ok tt,
        [Print (MsgFetching "alice");
         Subprocess
           ["gh"; "repo"; "list"; "alice"; "--fork"; "--json";
            "name,nameWithOwner,isFork,parent,url"; "--limit"; "1000"]
           "source-token";
         Print (MsgFoundForks 3); Print MsgSummaryHeader;
         Print (MsgTotalForked 3); Print (MsgToMigrate 3);
         Print (MsgSkippedCount 0); Print MsgStarting;
         Print (MsgDryRun "upstream/a"); Print (MsgNoParent "alice/orphan");
         Print (MsgNoParent "alice/orphan2");
         Print MsgComplete; Print (MsgSuccessful 1)]).
Proof. split; vm_compute; reflexivity. Qed.

End MigrationPass.

(* ===================================================================== *)
(** * Further properties *)
(* ===================================================================== *)

Section ParseGithubUrlMore.
Import Re ReFacts UrlFacts GitHubRepoScanner.

Lemma url_pattern_after_prefix prefix rest :
  re_match (url_pattern prefix) (prefix ++ rest)
  = re_match (url_pattern "") rest.
Proof.
  unfold re_match, url_pattern. now rewrite !rmatch_seq, rmatch_lit.
Qed.

(** The SSH and the HTTPS form of one repository parse alike: whatever
    follows the prefix, both patterns give the same answer, so a clone
    made over either protocol gets the same identity. *)
Theorem parse_github_url_ssh_https_agree (rest : string) :
  parse_github_url (ssh_prefix ++ rest)
  = parse_github_url (https_prefix ++ rest).
Proof.
  unfold parse_github_url, first_match, ssh_pattern, https_pattern.
  rewrite !url_pattern_after_prefix.
  assert (re_match (url_pattern https_prefix) (ssh_prefix ++ rest) = None)
    as -> by reflexivity.
  assert (re_match (url_pattern ssh_prefix) (https_prefix ++ rest) = None)
    as -> by reflexivity.
  change (PyStr.truthy (ssh_prefix ++ rest)) with true.
  change (PyStr.truthy (https_prefix ++ rest)) with true.
  destruct (re_match (url_pattern "") rest) as [[|o [|r [|x m]]]|];
    reflexivity.
Qed.

(** The identity read from a URL is canonical: unless the name itself
    still ends in [.git], the URL rebuilt from [full_name] under either
    prefix parses to the same record, and [full_name] is always the owner,
    a slash and the name. *)
Theorem parse_github_url_round_trip (url : string) (r : repo_info) :
  parse_github_url url = Some r ->
  full_name r = owner r ++ "/" ++ repo r
  /\ (PyStr.endswith (repo r) ".git" = false ->
      parse_github_url (https_prefix ++ full_name r) = Some r
      /\ parse_github_url (ssh_prefix ++ full_name r) = Some r).
Proof.
  intros H.
  apply parse_github_url_inv in H
    as (prefix & t & _ & _ & Ho1 & Ho2 & Hn1 & Hn2 & _ & Hfull).
  split; [exact Hfull|]. intros Hgit.
  assert (forall p, supported_prefix p ->
                    parse_github_url (p ++ full_name r) = Some r) as Hp.
  { intros p Hsup. rewrite Hfull.
    rewrite <- (append_nil_r (repo r)) at 1.
    rewrite (parse_github_url_shape p (owner r) (repo r) "");
      trivial.
    - destruct r as [o n f]. simpl in *. now rewrite Hfull.
    - unfold url_tail. auto.
    - intros n1 n2 E _ H2. now apply (url_tail_not_inside (repo r) n1 n2). }
  split; apply Hp; [now right | now left].
Qed.

Lemma parse_github_url_round_trip_witness :
  parse_github_url (https_prefix ++ "acme/widget")
  = Some {| owner := "acme"; repo := "widget"; full_name := "acme/widget" |}
  /\ parse_github_url (ssh_prefix ++ "acme/widget")
     = Some {| owner := "acme"; repo := "widget";
               full_name := "acme/widget" |}.
Proof.
  apply (proj2 (parse_github_url_round_trip
                  "git@github.com:acme/widget.git"
                  {| owner := "acme"; repo := "widget";
                     full_name := "acme/widget" |} eq_refl)).
  reflexivity.
Defined.

End ParseGithubUrlMore.

Section GetRemoteUrl.
Import Fs GitHubRepoScanner.

Lemma rev_app_append (s acc : string) :
  String.rev_app s acc = String.rev s ++ acc.
Proof.
  unfold String.rev. revert acc.
  induction s as [|c s IH]; intros acc; simpl; [reflexivity|].
  rewrite (IH (String c acc)), (IH (String c "")).
  now rewrite append_assoc.
Qed.

Lemma rev_cons c (s : string) :
  String.rev (String c s) = String.rev s ++ String c "".
Proof. unfold String.rev at 1. simpl. apply rev_app_append. Qed.

Lemma rev_append (a b : string) :
  String.rev (a ++ b) = String.rev b ++ String.rev a.
Proof.
  induction a as [|c a IH]; simpl.
  - now rewrite append_nil_r.
  - now rewrite !rev_cons, IH, append_assoc.
Qed.

Lemma rev_involutive (s : string) : String.rev (String.rev s) = s.
Proof.
  induction s as [|c s IH]; [reflexivity|].
  now rewrite rev_cons, rev_append, IH.
Qed.

Lemma lstrip_split (s : string) : exists p, s = p ++ PyStr.lstrip s.
Proof.
  induction s as [|c s [p IH]]; simpl.
  - now exists "".
  - destruct (PyStr.is_space c).
    + exists (String c p). simpl. now rewrite <- IH.
    + now exists "".
Qed.

Lemma lstrip_head (s : string) c rest :
  PyStr.lstrip s = String c rest -> PyStr.is_space c = false.
Proof.
  induction s as [|d s IH]; simpl; [discriminate|].
  destruct (PyStr.is_space d) eqn:Hd; [exact IH|].
  intros [= <- _]. exact Hd.
Qed.

Lemma strip_no_leading_space (s : string) c rest :
  PyStr.strip s = String c rest -> PyStr.is_space c = false.
Proof.
  unfold PyStr.strip. intros H.
  apply (f_equal String.rev) in H. rewrite rev_involutive, rev_cons in H.
  destruct (lstrip_split (String.rev (PyStr.lstrip s))) as [p Hp].
  rewrite H in Hp. apply (f_equal String.rev) in Hp.
  rewrite rev_involutive, <- append_assoc, rev_append in Hp.
  apply (lstrip_head s c _ Hp).
Qed.

Lemma strip_no_trailing_space (s : string) c rest :
  PyStr.strip s = rest ++ String c "" -> PyStr.is_space c = false.
Proof.
  unfold PyStr.strip. intros H.
  apply (f_equal String.rev) in H. rewrite rev_involutive, rev_append in H.
  apply (lstrip_head _ c _ H).
Qed.

(** [get_remote_url] fails exactly when git does, and the URL it returns
    neither starts nor ends with white space: the newline git prints after
    the URL never reaches the parser. *)
Theorem get_remote_url_is_stripped
    (git : path -> string -> option string) (repo_path : path)
    (remote_name : string) :
  (get_remote_url git repo_path remote_name = None
   <-> git repo_path remote_name = None)
  /\ (forall url,
        get_remote_url git repo_path remote_name = Some url ->
        (forall c rest, url = String c rest -> PyStr.is_space c = false)
        /\ (forall c rest,
              url = rest ++ String c "" -> PyStr.is_space c = false)).
Proof.
  unfold get_remote_url. destruct (git repo_path remote_name) as [stdout|].
  - split; [split; discriminate|]. intros url [= <-]. split.
    + intros c rest. apply strip_no_leading_space.
    + intros c rest. apply strip_no_trailing_space.
  - split; [tauto | discriminate].
Qed.

Lemma get_remote_url_is_stripped_witness :
  PyStr.is_space "g"%char = false.
Proof.
  refine (proj1 (proj2 (get_remote_url_is_stripped git_nested ["a"; "b"]
                          "origin")
                   "git@github.com:acme/b.git" _)
            "g"%char "it@github.com:acme/b.git" _).
  - vm_compute. reflexivity.
  - reflexivity.
Defined.

End GetRemoteUrl.

Module ScanMoreFacts.
Import Fs FsFacts GitHubRepoScanner ScanFacts.

(** An invariant of the loop state that every run of the body keeps is
    kept by the walk; [Q] is what is known of the directory the body is
    run at. *)
Lemma walk_invariant_at {S : Type}
    (body : path -> list string -> list string -> S -> list string * S)
    (Q : path -> node -> Prop) (I : S -> Prop) :
  (forall r entries s,
      Q r (Dir entries) -> I s ->
      I (snd (body r (dir_names entries) (file_names entries) s))
      /\ forall d child,
          In d (fst (body r (dir_names entries) (file_names entries) s)) ->
          lookup_entry d entries = Some child ->
          Q (r ++ [d])%list child) ->
  forall n r s, Q r n -> I s -> I (walk body n r s).
Proof.
  intros Hbody n.
  induction n as [|entries IH] using node_ind; intros r s HQ HI.
  - exact HI.
  - rewrite walk_Dir. destruct (Hbody r entries s HQ HI) as [HI1 HQ1].
    revert HI1 HQ1.
    generalize (snd (body r (dir_names entries) (file_names entries) s)).
    generalize (fst (body r (dir_names entries) (file_names entries) s)).
    intros dirs. induction dirs as [|d dirs IHd]; intros s1 HI1 HQ1.
    + exact HI1.
    + cbn [fold_left]. apply IHd.
      * destruct (lookup_entry d entries) as [child|] eqn:Hd; [|exact HI1].
        rewrite Forall_forall in IH.
        apply (IH (d, child)).
        -- apply list_elem_of_In. now apply lookup_entry_In.
        -- apply HQ1; [now left | exact Hd].
        -- exact HI1.
      * intros d' child Hin. apply HQ1. now right.
Qed.

Section Scan.
Variable git : path -> string -> option string.
Variable fs : node.

(** Everything one run of the loop body does. *)
Lemma scan_body_cases r dirs files st :
  visited (snd (scan_body git fs r dirs files st))
  = (visited st ++ [r])%list
  /\ ((is_git_repository fs r = false
       /\ fst (scan_body git fs r dirs files st)
          = List.filter
              (fun d => negb (PyStr.startswith d ".") || String.eqb d ".git")
              dirs
       /\ local_repos (snd (scan_body git fs r dirs files st))
          = local_repos st)
      \/ (is_git_repository fs r = true
          /\ fst (scan_body git fs r dirs files st) = []
          /\ ((exists url info,
                  get_remote_url git r "origin" = Some url
                  /\ parse_github_url url = Some info
                  /\ local_repos (snd (scan_body git fs r dirs files st))
                     = <[full_name info :=
                           {| lr_path := r; lr_owner := owner info;
                              lr_repo := repo info; lr_url := url |}]>
                         (local_repos st))
              \/ ((forall url info,
                      get_remote_url git r "origin" = Some url ->
                      parse_github_url url = Some info -> False)
                  /\ local_repos (snd (scan_body git fs r dirs files st))
                     = local_repos st)))).
Proof.
  split; [apply scan_body_visited|].
  unfold scan_body. destruct (is_git_repository fs r).
  - right. cbn [fst snd]. split; [reflexivity|]. split; [reflexivity|].
    destruct (get_remote_url git r "origin") as [url|].
    + destruct (PyStr.truthy url) eqn:Hurl.
      * destruct (parse_github_url url) as [info|] eqn:Hparse.
        -- left. exists url, info. repeat split; trivial.
        -- right. split; [|reflexivity]. intros u i [= <-]. congruence.
      * right. split; [|reflexivity]. intros u i [= <-].
        unfold parse_github_url. now rewrite Hurl.
    + right. split; [|reflexivity]. discriminate.
  - left. cbn [fst snd]. auto.
Qed.

(** A directory named [.git] lying in a directory makes it a repository
    root. *)
Lemma git_directory_makes_repository r entries :
  resolve fs r = Some (Dir entries) ->
  In ".git" (dir_names entries) ->
  is_git_repository fs r = true.
Proof.
  intros Hr Hin. unfold dir_names in Hin.
  apply in_map_iff in Hin as ([n c] & E & Hin). simpl in E. subst n.
  apply List.filter_In in Hin as [Hin _].
  destruct (In_lookup_entry _ _ _ Hin) as [y Hy].
  unfold is_git_repository, path_exists.
  rewrite resolve_app, Hr. simpl. now rewrite Hy.
Qed.

(** Every directory the walk reaches is a directory of the tree whose
    path has no hidden component. *)
Lemma walk_visits_visible n r st :
  resolve fs r = Some n ->
  Forall (fun d => PyStr.startswith d "." = false) r ->
  (forall q, q ∈ visited st ->
     Forall (fun d => PyStr.startswith d "." = false) q
     /\ exists entries, resolve fs q = Some (Dir entries)) ->
  forall q, q ∈ visited (walk (scan_body git fs) n r st) ->
    Forall (fun d => PyStr.startswith d "." = false) q
    /\ exists entries, resolve fs q = Some (Dir entries).
Proof.
  intros Hn Hr Hst.
  apply (walk_invariant_at (scan_body git fs)
           (fun r n => resolve fs r = Some n
                       /\ Forall (fun d => PyStr.startswith d "." = false) r)
           (fun st => forall q, q ∈ visited st ->
              Forall (fun d => PyStr.startswith d "." = false) q
              /\ exists entries, resolve fs q = Some (Dir entries)));
    [|now split|exact Hst].
  clear. intros r entries st [Hr Hvis] Hst.
  destruct (scan_body_cases r (dir_names entries) (file_names entries) st)
    as [Hv Hcases].
  split.
  - intros q Hq. rewrite Hv in Hq.
    apply elem_of_app in Hq as [Hq | Hq%list_elem_of_singleton]; [auto|].
    subst q. split; [exact Hvis | now exists entries].
  - intros d child Hd Hl.
    destruct Hcases as [(Hrepo & Hdirs & _) | (_ & Hdirs & _)];
      rewrite Hdirs in Hd; [|contradiction].
    apply List.filter_In in Hd as [Hd Hkeep]. split.
    + rewrite resolve_app, Hr. simpl. now rewrite Hl.
    + apply Forall_app. split; [exact Hvis|]. apply Forall_singleton.
      destruct (PyStr.startswith d ".") eqn:Hhid; [|reflexivity].
      simpl in Hkeep. apply String.eqb_eq in Hkeep. subst d.
      rewrite (git_directory_makes_repository r entries Hr Hd) in Hrepo.
      discriminate.
Qed.

(** The records of the mapping are only ever added or replaced, and the
    directories reached are only ever added. *)
Lemma walk_monotone n r st :
  (forall q, q ∈ visited st ->
             q ∈ visited (walk (scan_body git fs) n r st))
  /\ (forall k, is_Some (local_repos st !! k) ->
                is_Some (local_repos (walk (scan_body git fs) n r st) !! k)).
Proof.
  apply (walk_invariant_at (scan_body git fs) (fun _ _ => True)
           (fun st' =>
              (forall q, q ∈ visited st -> q ∈ visited st')
              /\ (forall k, is_Some (local_repos st !! k) ->
                            is_Some (local_repos st' !! k))));
    [|exact I|now split].
  intros r' entries st' _ [Hv Hk]. split; [|trivial].
  destruct (scan_body_cases r' (dir_names entries) (file_names entries) st')
    as [-> Hcases].
  split.
  - intros q Hq. apply elem_of_app. left. now apply Hv.
  - intros k Hin. specialize (Hk k Hin).
    destruct Hcases
      as [(_ & _ & ->) | (_ & _ & [(url & info & _ & _ & ->) | [_ ->]])];
      trivial.
    apply lookup_insert_is_Some'. now right.
Qed.

(** A directory is found in a state when the walk has reached it and, if
    it is a repository root whose origin parses, its identity is a key of
    the mapping. *)
Definition found (p : path) (st : scan_state) : Prop :=
  p ∈ visited st
  /\ (forall url info,
        is_git_repository fs p = true ->
        get_remote_url git p "origin" = Some url ->
        parse_github_url url = Some info ->
        is_Some (local_repos st !! full_name info)).

Lemma found_walk p n r st :
  found p st -> found p (walk (scan_body git fs) n r st).
Proof.
  intros [Hv Hk]. destruct (walk_monotone n r st) as [Mv Mk]. split.
  - now apply Mv.
  - intros url info H1 H2 H3. apply Mk. now apply (Hk url info).
Qed.

Lemma found_fold p entries r dirs st :
  found p st ->
  found p
    (fold_left
       (fun acc d =>
          match lookup_entry d entries with
          | Some child => walk (scan_body git fs) child (r ++ [d])%list acc
          | None => acc
          end) dirs st).
Proof.
  revert st. induction dirs as [|d dirs IH]; intros st H; [exact H|].
  cbn [fold_left]. apply IH.
  destruct (lookup_entry d entries); [now apply found_walk | exact H].
Qed.

Lemma resolve_Some_Dir n d suffix m :
  resolve n (d :: suffix) = Some m ->
  exists entries child,
    n = Dir entries /\ lookup_entry d entries = Some child
    /\ resolve child suffix = Some m.
Proof.
  simpl. destruct n as [|entries]; [discriminate|].
  destruct (lookup_entry d entries) as [child|] eqn:Hd; [|discriminate].
  intros H. now exists entries, child.
Qed.

Lemma lookup_dir_name d entries es :
  lookup_entry d entries = Some (Dir es) -> In d (dir_names entries).
Proof.
  intros H. apply lookup_entry_In in H. unfold dir_names.
  apply in_map_iff. exists (d, Dir es). split; [reflexivity|].
  apply List.filter_In. now split.
Qed.

(** The walk reaches every directory below its start whose path has no
    hidden component and no repository root strictly above it. *)
Lemma walk_reaches n :
  forall r st suffix entries,
    resolve fs r = Some n ->
    resolve n suffix = Some (Dir entries) ->
    Forall (fun d => PyStr.startswith d "." = false) suffix ->
    (forall q, q `prefix_of` suffix -> q <> suffix ->
               is_git_repository fs (r ++ q)%list = false) ->
    found (r ++ suffix)%list (walk (scan_body git fs) n r st).
Proof.
  induction n as [|es IH] using node_ind;
    intros r st suffix entries Hr Hn Hvis Hclean.
  - destruct suffix; simpl in Hn; discriminate.
  - rewrite walk_Dir.
    destruct (scan_body_cases r (dir_names es) (file_names es) st)
      as [Hv Hcases].
    destruct suffix as [|d suffix].
    + rewrite app_nil_r. apply found_fold. split.
      * rewrite Hv. apply elem_of_app. right. left.
      * intros url info Hrepo Hurl Hparse.
        destruct Hcases as [(Hno & _) | (_ & _ & [Hins | [Hnone _]])].
        -- congruence.
        -- destruct Hins as (url' & info' & Hurl' & Hparse' & ->).
           assert (url' = url) as -> by congruence.
           assert (info' = info) as -> by congruence.
           rewrite lookup_insert_eq. eauto.
        -- destruct (Hnone url info Hurl Hparse).
    + apply resolve_Some_Dir in Hn as (es' & child & [= <-] & Hd & Hchild).
      assert (exists ces, child = Dir ces) as [ces ->].
      { destruct suffix as [|x suffix].
        - simpl in Hchild. injection Hchild as ->. now exists entries.
        - apply resolve_Some_Dir in Hchild as (ces & _ & -> & _).
          now exists ces. }
      destruct Hcases as [(_ & Hdirs & _) | (Hrepo & _)].
      2:{ rewrite <- (app_nil_r r) in Hrepo.
          rewrite Hclean in Hrepo; [discriminate | apply prefix_nil
                                    | discriminate]. }
      rewrite Hdirs.
      apply Forall_cons in Hvis as [Hd_vis Hvis].
      assert (In d (List.filter
                      (fun d => negb (PyStr.startswith d ".")
                                || String.eqb d ".git")
                      (dir_names es))) as Hin.
      { apply List.filter_In. split; [now apply (lookup_dir_name d es ces)|].
        now rewrite Hd_vis. }
      apply in_split in Hin as (l1 & l2 & ->).
      rewrite fold_left_app. cbn [fold_left]. apply found_fold.
      rewrite Hd.
      replace (r ++ d :: suffix)%list with ((r ++ [d]) ++ suffix)%list
        by now rewrite <- app_assoc.
      rewrite Forall_forall in IH.
      apply (IH (d, Dir ces)) with (entries := entries); trivial.
      * apply list_elem_of_In. now apply lookup_entry_In.
      * rewrite resolve_app, Hr. simpl. now rewrite Hd.
      * intros q Hq Hne. rewrite <- app_assoc. apply Hclean.
        -- now apply prefix_cons.
        -- simpl. congruence.
Qed.

(** Every record of the mapping was built from what git reported for the
    record's path. *)
Lemma walk_records_consistent n r st :
  (forall k rec, local_repos st !! k = Some rec ->
     exists info,
       get_remote_url git (lr_path rec) "origin" = Some (lr_url rec)
       /\ parse_github_url (lr_url rec) = Some info
       /\ k = full_name info
       /\ lr_owner rec = owner info /\ lr_repo rec = repo info) ->
  forall k rec,
    local_repos (walk (scan_body git fs) n r st) !! k = Some rec ->
    exists info,
      get_remote_url git (lr_path rec) "origin" = Some (lr_url rec)
      /\ parse_github_url (lr_url rec) = Some info
      /\ k = full_name info
      /\ lr_owner rec = owner info /\ lr_repo rec = repo info.
Proof.
  intros Hst.
  apply (walk_invariant_at (scan_body git fs) (fun _ _ => True)
           (fun st => forall k rec, local_repos st !! k = Some rec ->
              exists info,
                get_remote_url git (lr_path rec) "origin" = Some (lr_url rec)
                /\ parse_github_url (lr_url rec) = Some info
                /\ k = full_name info
                /\ lr_owner rec = owner info /\ lr_repo rec = repo info));
    [|exact I|exact Hst].
  clear. intros r entries st _ Hst. split; [|trivial].
  destruct (scan_body_cases r (dir_names entries) (file_names entries) st)
    as [_ Hcases].
  intros k rec Hk.
  destruct Hcases
    as [(_ & _ & E) | (_ & _ & [(url & info & Hu & Hp & E) | [_ E]])];
    rewrite E in Hk; [now apply Hst| |now apply Hst].
  destruct (decide (full_name info = k)) as [<- | Hne].
  - rewrite lookup_insert_eq in Hk. injection Hk as <-. simpl.
    exists info. auto.
  - rewrite lookup_insert_ne in Hk by assumption. now apply Hst.
Qed.

End Scan.
End ScanMoreFacts.

Section ScanDirectoryMore.
Import Fs FsFacts GitHubRepoScanner ScanFacts ScanMoreFacts UrlFacts.

Lemma scan_directory_state git fs :
  visited (scan_directory git fs)
  = visited (walk (scan_body git fs) fs []
               (log PrintScanning {| local_repos := ∅; scan_log := [] |}))
  /\ local_repos (scan_directory git fs)
     = local_repos (walk (scan_body git fs) fs []
                      (log PrintScanning
                         {| local_repos := ∅; scan_log := [] |})).
Proof.
  unfold scan_directory. split; [|reflexivity].
  now rewrite visited_log, app_nil_r.
Qed.

Lemma visited_iff git fs p :
  p ∈ visited (scan_directory git fs)
  <-> (exists entries, resolve fs p = Some (Dir entries))
      /\ Forall (fun d => PyStr.startswith d "." = false) p
      /\ (forall q, q `prefix_of` p -> q <> p ->
                    is_git_repository fs q = false).
Proof.
  destruct (scan_directory_state git fs) as [-> _]. split.
  - intros Hp. split; [|split].
    + eapply (walk_visits_visible git fs fs []); eauto.
      intros q Hq. inversion Hq.
    + eapply (walk_visits_visible git fs fs []); eauto.
      intros q Hq. inversion Hq.
    + destruct (walk_scan_step git fs fs []
                  (log PrintScanning {| local_repos := ∅; scan_log := [] |})
                  eq_refl) as [V _].
      destruct (V p Hp) as [H | [_ H]]; [inversion H|].
      intros q Hq Hne. apply H; trivial. apply prefix_nil.
  - intros ([entries He] & Hvis & Hclean).
    apply (walk_reaches git fs fs [] _ p entries eq_refl He Hvis Hclean).
Qed.

Lemma records_consistent git fs k rec :
  local_repos (scan_directory git fs) !! k = Some rec ->
  exists info,
    get_remote_url git (lr_path rec) "origin" = Some (lr_url rec)
    /\ parse_github_url (lr_url rec) = Some info
    /\ k = full_name info
    /\ lr_owner rec = owner info /\ lr_repo rec = repo info.
Proof.
  destruct (scan_directory_state git fs) as [_ ->].
  apply walk_records_consistent.
  intros k' rec' H. simpl in H. rewrite lookup_empty in H. discriminate.
Qed.


(** The scan reaches exactly the directories of the tree whose path has no
    component starting with a dot and no repository root strictly above
    it.  So it never enters a hidden directory, not even [.git], although
    the filter of the loop keeps that name. *)
Theorem scan_directory_visits_exactly
    (git : path -> string -> option string) (fs : node) (p : path) :
  p ∈ visited (scan_directory git fs)
  <-> (exists entries, resolve fs p = Some (Dir entries))
      /\ Forall (fun d => PyStr.startswith d "." = false) p
      /\ (forall q, q `prefix_of` p -> q <> p ->
                    is_git_repository fs q = false).
Proof. apply visited_iff. Qed.




(** The mapping is keyed consistently: every record sits under the key
    [owner/name] read from the URL that git reports for the record's
    path, and carries that owner, name and URL. *)
Theorem scan_directory_records_are_consistent
    (git : path -> string -> option string) (fs : node) (k : string)
    (rec : local_repo) :
  local_repos (scan_directory git fs) !! k = Some rec ->
  get_remote_url git (lr_path rec) "origin" = Some (lr_url rec)
  /\ parse_github_url (lr_url rec)
     = Some {| owner := lr_owner rec; repo := lr_repo rec; full_name := k |}
  /\ k = lr_owner rec ++ "/" ++ lr_repo rec.
Proof.
  intros H. destruct (records_consistent git fs k rec H)
    as (info & Hurl & Hparse & -> & -> & ->).
  split; [exact Hurl|]. split; [now destruct info|].
  now apply parse_github_url_inv in Hparse
    as (_ & _ & _ & _ & _ & _ & _ & _ & _ & Hf).
Qed.

Lemma scan_directory_records_are_consistent_witness :
  "acme/b" = "acme" ++ "/" ++ "b".
Proof.
  refine (proj2 (proj2 (scan_directory_records_are_consistent
                          git_nested fs_nested "acme/b"
                          {| lr_path := ["a"; "b"]; lr_owner := "acme";
                             lr_repo := "b";
                             lr_url := "git@github.com:acme/b.git" |} _))).
  vm_compute. reflexivity.
Defined.

End ScanDirectoryMore.

Module TraceFacts.
Import GitHubRepoScanner GitHubRepoMigrator MigratorFacts.
Local Open Scope py_scope.

Lemma emits_ret {A : Type} P (a : A) : emits P (ret a).
Proof. intros tr. exists []. now rewrite app_nil_r. Qed.

Lemma emits_raise {A : Type} P e : emits P (@raise A e).
Proof. intros tr. exists []. now rewrite app_nil_r. Qed.

Lemma emits_print (P : event -> Prop) m : P (Print m) -> emits P (print m).
Proof. intros H tr. exists [Print m]. split; [reflexivity | auto]. Qed.

Lemma emits_bind {A B : Type} P (m : M A) (f : A -> M B) :
  emits P m -> (forall a, emits P (f a)) -> emits P (bind m f).
Proof.
  intros Hm Hf tr. unfold bind. destruct (Hm tr) as (out1 & E1 & H1).
  destruct (m tr) as [[a|e] tr']; simpl in E1; subst tr'.
  - destruct (Hf a (tr ++ out1)%list) as (out2 & E2 & H2).
    exists (out1 ++ out2)%list. rewrite E2, app_assoc.
    split; [reflexivity | now apply Forall_app].
  - now exists out1.
Qed.

Lemma emits_for_each {A : Type} P (l : list A) (f : A -> M unit) :
  (forall x, emits P (f x)) -> emits P (for_each l f).
Proof.
  intros Hf. induction l as [|x l IH]; simpl.
  - apply emits_ret.
  - apply emits_bind; [apply Hf | intros _; exact IH].
Qed.

Lemma prompts_app a b : prompts (a ++ b) = (prompts a ++ prompts b)%list.
Proof. apply omap_app. Qed.

Lemma subprocesses_app a b :
  subprocesses (a ++ b) = (subprocesses a ++ subprocesses b)%list.
Proof. apply omap_app. Qed.

Lemma no_input_prompts out :
  Forall (fun e => forall prompt, e <> Input prompt) out -> prompts out = [].
Proof.
  induction 1 as [|e out He _ IH]; [reflexivity|].
  destruct e as [m|argv token|prompt]; simpl; trivial.
  now destruct (He prompt).
Qed.


Section World.
Variable gh : list event -> list string -> string -> string + string.
Variable input_line : list event -> string -> string.
Variable json_loads : string -> list fork_record.
Variable self : migrator.

Section Emits.
Variable P : event -> Prop.
Hypothesis P_print : forall m, P (Print m).

Lemma emits_run_gh_command args token :
  P (Subprocess ("gh" :: args) token) ->
  emits P (run_gh_command gh args token).
Proof.
  intros H tr. unfold run_gh_command.
  destruct (gh tr args token) as [stdout|stderr].
  - exists [Subprocess ("gh" :: args) token]. split; [reflexivity | auto].
  - exists [Subprocess ("gh" :: args) token; Print (MsgGhError stderr)].
    split; [now rewrite <- app_assoc | auto].
Qed.

Lemma emits_get_forked_repositories :
  P (Subprocess (list_argv self) (source_token self)) ->
  emits P (get_forked_repositories gh json_loads self).
Proof.
  intros H. unfold get_forked_repositories.
  apply emits_bind; [now apply emits_print|]. intros _.
  apply emits_bind; [now apply emits_run_gh_command|]. intros output.
  destruct (truthy output); [|apply emits_ret].
  apply emits_bind; [now apply emits_print | intros _; apply emits_ret].
Qed.

Lemma emits_report_summary (local_repos : gmap string local_repo) forked
    to_migrate skipped :
  emits P (report_summary local_repos forked to_migrate skipped).
Proof.
  unfold report_summary.
  repeat (apply emits_bind; [now apply emits_print | intros _]).
  destruct skipped as [|n names]; [apply emits_ret|].
  apply emits_bind; [now apply emits_print | intros _].
  apply emits_bind; [|intros _; now apply emits_print].
  apply emits_for_each. intros name.
  destruct (local_repos !! name); [now apply emits_print|apply emits_raise].
Qed.

Lemma emits_fork_repository name dry_run :
  (dry_run = false -> P (Subprocess (fork_argv name) (target_token self))) ->
  emits P (fork_repository gh self name dry_run).
Proof.
  intros H. unfold fork_repository. destruct dry_run.
  - apply emits_bind; [now apply emits_print | intros _; apply emits_ret].
  - apply emits_bind; [now apply emits_print | intros _].
    apply emits_bind; [apply emits_run_gh_command; now apply H|].
    intros output. destruct (truthy output);
      (apply emits_bind; [now apply emits_print | intros _; apply emits_ret]).
Qed.

Lemma emits_migration_loop dry_run repos :
  (dry_run = false ->
   forall repo name, repo ∈ repos -> resolvable_parent repo = Some name ->
                     P (Subprocess (fork_argv name) (target_token self))) ->
  forall successful failed,
    emits P (migration_loop gh self dry_run repos successful failed).
Proof.
  induction repos as [|repo rest IH]; intros H successful failed.
  - apply emits_ret.
  - assert (forall s f, emits P (migration_loop gh self dry_run rest s f))
      as Hrest.
    { apply IH. intros Hdry r name Hin. apply H; trivial. now right. }
    cbn [migration_loop].
    destruct (get_parent_cases repo)
      as [[_ ->] | [(_ & name & Hres & -> & Htruthy)
                   | (_ & _ & v & -> & Htruthy)]].
    + intros tr. exists []. unfold bind, raise. simpl.
      now rewrite app_nil_r.
    + intros tr. rewrite bind_ret, Htruthy. revert tr.
      change (default "" (Some name)) with name.
      apply emits_bind; [|intros []; apply Hrest].
      apply emits_fork_repository. intros Hdry.
      apply (H Hdry repo name); [left | exact Hres].
    + intros tr. rewrite bind_ret, Htruthy. revert tr.
      apply emits_bind; [now apply emits_print | intros _; apply Hrest].
Qed.

Lemma emits_perform_migration dry_run repos :
  (dry_run = false ->
   forall repo name, repo ∈ repos -> resolvable_parent repo = Some name ->
                     P (Subprocess (fork_argv name) (target_token self))) ->
  emits P (perform_migration gh self dry_run repos).
Proof.
  intros H. unfold perform_migration.
  apply emits_bind; [now apply emits_print | intros _].
  apply emits_bind; [now apply emits_migration_loop|]. intros [s f].
  apply emits_bind; [now apply emits_print | intros _].
  apply emits_bind; [now apply emits_print | intros _].
  destruct (0 <? f)%nat; [now apply emits_print | apply emits_ret].
Qed.

Lemma emits_confirm_and_migrate dry_run repos :
  (dry_run = false -> P (Input confirm_prompt)) ->
  (dry_run = false ->
   forall repo name, repo ∈ repos -> resolvable_parent repo = Some name ->
                     P (Subprocess (fork_argv name) (target_token self))) ->
  emits P (confirm_and_migrate gh input_line self dry_run repos).
Proof.
  intros Hin H. unfold confirm_and_migrate.
  destruct repos as [|repo rest] eqn:E; [now apply emits_print|].
  rewrite <- E in *. clear E.
  destruct dry_run; [now apply emits_perform_migration|].
  apply emits_bind; [now apply emits_print | intros _].
  apply emits_bind.
  - intros tr. exists [Input confirm_prompt]. split; [reflexivity|].
    apply Forall_singleton. now apply Hin.
  - intros confirm. destruct (affirmative confirm);
      [now apply emits_perform_migration | now apply emits_print].
Qed.

Lemma emits_migrate_repositories
    (local_repos : gmap string local_repo) dry_run :
  P (Subprocess (list_argv self) (source_token self)) ->
  (dry_run = false -> P (Input confirm_prompt)) ->
  (dry_run = false ->
   forall repo name,
     repo ∈ candidates gh json_loads self local_repos ->
     resolvable_parent repo = Some name ->
     P (Subprocess (fork_argv name) (target_token self))) ->
  exists out,
    snd (run gh input_line json_loads self local_repos dry_run) = out
    /\ Forall P out.
Proof.
  intros Hlist Hin Hfork.
  unfold run, migrate_repositories, candidates, listed_forks in *.
  destruct (get_forked_repositories_spec gh json_loads self [])
    as (forks & out0 & E & _).
  destruct (emits_get_forked_repositories Hlist []) as (out0' & E' & H0).
  rewrite E in E'. simpl in E'. subst out0'.
  rewrite E in Hfork. unfold bind at 1. rewrite E. cbn [app].
  destruct forks as [|repo rest].
  - eexists. split; [reflexivity|]. apply Forall_app. auto.
  - set (forks := repo :: rest) in *.
    rewrite (surjective_pairing (compute_migration_set forks local_repos)).
    assert (emits P
              (bind (report_summary local_repos forks
                       (fst (compute_migration_set forks local_repos))
                       (snd (compute_migration_set forks local_repos)))
                 (fun _ => confirm_and_migrate gh input_line self dry_run
                             (fst (compute_migration_set forks
                                     local_repos))))) as Hrest.
    { apply emits_bind; [apply emits_report_summary | intros _].
      now apply emits_confirm_and_migrate. }
    destruct (Hrest out0) as (out1 & -> & H1).
    eexists. split; [reflexivity|]. now apply Forall_app.
Qed.

End Emits.
(** The decision of lines 221-231, for whatever the operator answers. *)
Lemma confirm_and_migrate_cases dry_run repos tr :
  confirm_and_migrate gh input_line self dry_run repos tr
  = match repos with
    | [] => (Ok tt, (tr ++ [Print MsgNothingToMigrate])%list)
    | _ :: _ =>
        if dry_run then perform_migration gh self dry_run repos tr
        else if affirmative
                  (input_line
                     (tr ++ [Print (MsgAboutToMigrate (length repos)
                                      (target_username self))])%list
                     confirm_prompt)
        then perform_migration gh self dry_run repos
               ((tr ++ [Print (MsgAboutToMigrate (length repos)
                                 (target_username self))])
                ++ [Input confirm_prompt])%list
        else (Ok tt,
              (((tr ++ [Print (MsgAboutToMigrate (length repos)
                                 (target_username self))])
                ++ [Input confirm_prompt])
               ++ [Print MsgCancelled])%list)
    end.
Proof.
  unfold confirm_and_migrate. destruct repos as [|repo rest]; [reflexivity|].
  destruct dry_run; [reflexivity|].
  rewrite bind_print. unfold bind, input.
  now destruct (affirmative _).
Qed.

(** What [fork_repository] returns in a real run: whether gh exited with
    status 0 and printed something. *)
Lemma fork_repository_result name tr :
  fst (fork_repository gh self name false tr)
  = Ok (gh_reports_success
          (gh (tr ++ [Print (MsgForking name)])%list
             ["repo"; "fork"; name; "--fork-name"; PyStr.split_last "/" name]
             (target_token self)))
  /\ subprocesses (snd (fork_repository gh self name false tr))
     = (subprocesses tr ++ [(fork_argv name, target_token self)])%list.
Proof.
  unfold fork_repository. rewrite bind_print. unfold bind, run_gh_command.
  destruct (gh _ _ _) as [stdout|stderr]; simpl.
  - destruct (PyStr.truthy stdout); simpl;
      (split; [reflexivity|]); rewrite !subprocesses_app;
      simpl; now rewrite !app_nil_r.
  - split; [reflexivity|]. rewrite !subprocesses_app. simpl.
    now rewrite !app_nil_r.
Qed.

(** The counters when every fork command ends the same way. *)
Lemma migration_loop_counts (b : bool) :
  (forall tr name,
      gh_reports_success
        (gh tr ["repo"; "fork"; name; "--fork-name";
                PyStr.split_last "/" name] (target_token self)) = b) ->
  forall repos successful failed tr successful' failed',
    fst (migration_loop gh self false repos successful failed tr)
    = Ok (successful', failed') ->
    if b
    then successful'
         = successful + length (omap resolvable_parent repos)
         /\ failed' = failed
    else successful' = successful
         /\ failed' = failed + length (omap resolvable_parent repos).
Proof.
  intros Hgh repos.
  induction repos as [|repo rest IH]; intros s f tr s' f'.
  - simpl. intros [= <- <-]. destruct b; lia.
  - cbn [migration_loop]. rewrite attempts_cons.
    destruct (get_parent_cases repo)
      as [[_ ->] | [(_ & name & -> & -> & Htruthy)
                   | (_ & -> & v & -> & Htruthy)]].
    + discriminate.
    + rewrite bind_ret, Htruthy.
      change (default "" (Some name)) with name. unfold bind at 1.
      destruct (fork_repository_result name tr) as [Hres _].
      destruct (fork_repository gh self name false tr) as [r tr'].
      simpl in Hres. subst r. rewrite Hgh. cbn [length].
      destruct b; intros H; apply IH in H; lia.
    + rewrite bind_ret, Htruthy, bind_print. apply IH.
Qed.

(** The pass in terms of its loop. *)
Lemma perform_migration_exact dry_run repos tr :
  perform_migration gh self dry_run repos tr
  = match migration_loop gh self dry_run repos 0 0
            (tr ++ [Print MsgStarting])%list with
    | (Ok (successful, failed), tr') =>
        (Ok tt,
         (tr' ++ [Print MsgComplete; Print (MsgSuccessful successful)]
              ++ (if (0 <? failed)%nat then [Print (MsgFailed failed)]
                  else []))%list)
    | (Raise e, tr') => (Raise e, tr')
    end.
Proof.
  unfold perform_migration. rewrite bind_print. unfold bind at 1.
  destruct (migration_loop _ _ _ _ _ _ _) as [[[s f]|e] tr']; [|reflexivity].
  rewrite !bind_print. destruct (0 <? f)%nat.
  - unfold print, emit. now rewrite <- !app_assoc.
  - unfold ret. now rewrite <- !app_assoc.
Qed.

(** A run, up to the decision whether to migrate: before it come only
    printed lines and the listing command. *)
Lemma run_structure (local_repos : gmap string local_repo) dry_run :
  exists pre,
    Forall (fun e => match e with
                     | Print _ => True
                     | Subprocess argv token =>
                         argv = list_argv self /\ token = source_token self
                     | Input _ => False
                     end) pre
    /\ observe pre = obs_nil
    /\ run gh input_line json_loads self local_repos dry_run
       = match listed_forks gh json_loads self with
         | [] => (Ok tt, (pre ++ [Print MsgNoForks])%list)
         | _ :: _ =>
             confirm_and_migrate gh input_line self dry_run
               (candidates gh json_loads self local_repos) pre
         end.
Proof.
  set (P := fun e => match e with
                     | Print _ => True
                     | Subprocess argv token =>
                         argv = list_argv self /\ token = source_token self
                     | Input _ => False
                     end).
  assert (forall m, P (Print m)) as P_print by (intros m; exact I).
  unfold run, migrate_repositories, candidates, listed_forks.
  destruct (get_forked_repositories_spec gh json_loads self [])
    as (forks & out & E & Hout).
  destruct (emits_get_forked_repositories P P_print
              (conj eq_refl eq_refl) []) as (out' & E' & H0).
  rewrite E in E'. simpl in E'. subst out'.
  unfold bind at 1. rewrite E. cbn [app].
  destruct forks as [|repo rest].
  - exists out. auto.
  - set (forks := repo :: rest).
    rewrite (surjective_pairing (compute_migration_set forks local_repos)).
    unfold bind at 1.
    destruct (report_summary_spec local_repos forks out)
      as (out2 & E2 & Hout2).
    destruct (emits_report_summary P P_print local_repos forks
                (fst (compute_migration_set forks local_repos))
                (snd (compute_migration_set forks local_repos)) out)
      as (out2' & E2' & H2).
    rewrite E2 in E2'. simpl in E2'. apply app_inv_head in E2'. subst out2'.
    rewrite E2.
    exists (out ++ out2)%list. split; [now apply Forall_app|].
    split; [|reflexivity]. now rewrite observe_app, Hout, Hout2.
Qed.

End World.
End TraceFacts.

Section GhCommands.
Import GitHubRepoScanner GitHubRepoMigrator MigratorFacts TraceFacts.

(** Splitting at a separator gives at least one segment, no segment holds
    the separator, and joining the segments gives the string back. *)
Lemma split_join sep (s : string) :
  PyStr.split sep s <> []
  /\ Forall (fun x => PyStr.contains sep x = false) (PyStr.split sep s)
  /\ PyStr.join sep (PyStr.split sep s) = s.
Proof.
  induction s as [|c s (Hne & Hall & Hjoin)]; simpl.
  - repeat split; [discriminate | now repeat constructor].
  - destruct (Ascii.eqb_spec c sep) as [-> | Hc].
    + split; [discriminate|]. split; [now constructor|].
      destruct (PyStr.split sep s); [congruence|]. simpl in *.
      now rewrite Hjoin.
    + destruct (PyStr.split sep s) as [|h t]; [congruence|].
      split; [discriminate|].
      apply Forall_cons in Hall as [Hh Ht]. split.
      * constructor; [|exact Ht]. rewrite contains_cons, Hh.
        now destruct (Ascii.eqb_spec c sep).
      * destruct t; simpl in *; now rewrite <- Hjoin.
Qed.

Lemma join_snoc sep l x :
  l <> [] ->
  PyStr.join sep (l ++ [x]) = PyStr.join sep l ++ String sep x.
Proof.
  induction l as [|y l IH]; [congruence|]. intros _.
  destruct l as [|z l].
  - reflexivity.
  - change (PyStr.join sep ((y :: z :: l) ++ [x]))
      with (y ++ String sep (PyStr.join sep ((z :: l) ++ [x]))).
    rewrite IH by discriminate.
    change (PyStr.join sep (y :: z :: l))
      with (y ++ String sep (PyStr.join sep (z :: l))).
    now rewrite append_assoc.
Qed.

(** The name [fork_repository] gives the new fork is the text after the
    last slash of the repository it forks: it holds no slash, and the
    repository name is that text, or something, a slash and that text. *)
Theorem fork_name_is_last_segment (repo_full_name : string) :
  exists leaf,
    fork_argv repo_full_name
    = ["gh"; "repo"; "fork"; repo_full_name; "--fork-name"; leaf]
    /\ PyStr.contains "/" leaf = false
    /\ (repo_full_name = leaf
        \/ exists before, repo_full_name = before ++ "/" ++ leaf).
Proof.
  exists (PyStr.split_last "/" repo_full_name). split; [reflexivity|].
  unfold PyStr.split_last.
  destruct (split_join "/" repo_full_name) as (Hne & Hall & Hjoin).
  destruct (exists_last Hne) as (init & leaf & E). rewrite E in *.
  rewrite last_last. rewrite Forall_app in Hall. destruct Hall as [_ Hlast].
  rewrite Forall_singleton in Hlast. split; [exact Hlast|].
  destruct init as [|y l].
  - left. now rewrite <- Hjoin.
  - right. exists (PyStr.join "/" (y :: l)).
    rewrite <- Hjoin. now apply join_snoc.
Qed.


(** In a dry run [fork_repository] starts nothing and reports success.  In
    a real run it starts one [gh repo fork] under the target token and
    returns, whether that command fails or not; it reports success only
    when the command exits with status 0 and prints something: a command
    that fails, and one that succeeds silently, both count as failed. *)
Theorem fork_repository_outcome gh self (name : string) (tr : list event) :
  fork_repository gh self name true tr
  = (Ok true, (tr ++ [Print (MsgDryRun name)])%list)
  /\ subprocesses (snd (fork_repository gh self name false tr))
     = (subprocesses tr ++ [(fork_argv name, target_token self)])%list
  /\ fst (fork_repository gh self name false tr)
     = match gh (tr ++ [Print (MsgForking name)])%list
               ["repo"; "fork"; name; "--fork-name";
                PyStr.split_last "/" name] (target_token self) with
       | inl EmptyString => Ok false
       | inl _ => Ok true
       | inr _ => Ok false
       end.
Proof.
  split; [reflexivity|].
  destruct (fork_repository_result gh self name tr) as [Hres Hsub].
  split; [exact Hsub|]. rewrite Hres.
  now destruct (gh _ _ _) as [[|c stdout]|stderr].
Qed.

End GhCommands.

Section MigrationRun.
Import GitHubRepoScanner GitHubRepoMigrator MigratorFacts TraceFacts.

Lemma subprocess_tokens
    gh input_line json_loads self (local_repos : gmap string local_repo)
    (dry_run : bool) (argv : list string) (token : string) :
  (argv, token)
  ∈ subprocesses (snd (run gh input_line json_loads self local_repos dry_run))
  ->
  (argv = list_argv self /\ token = source_token self)
  \/ (dry_run = false /\ token = target_token self
      /\ exists repo name,
          repo ∈ candidates gh json_loads self local_repos
          /\ resolvable_parent repo = Some name
          /\ argv = fork_argv name).
Proof.
  intros Hin.
  destruct (emits_migrate_repositories gh input_line json_loads self
              (fun e =>
                 match e with
                 | Subprocess argv token =>
                     (argv = list_argv self /\ token = source_token self)
                     \/ (dry_run = false /\ token = target_token self
                         /\ exists repo name,
                             repo ∈ candidates gh json_loads self local_repos
                             /\ resolvable_parent repo = Some name
                             /\ argv = fork_argv name)
                 | _ => True
                 end)
              (fun _ => I) local_repos dry_run) as (out & E & Hout).
  - now left.
  - intros _. exact I.
  - intros Hdry repo name Hrepo Hname. right. eauto 8.
  - rewrite E in Hin. apply list_elem_of_omap in Hin as (e & He & Hsub).
    rewrite Forall_forall in Hout. specialize (Hout e He).
    destruct e as [m|argv' token'|prompt]; try discriminate.
    injection Hsub as -> ->. exact Hout.
Qed.

(** Each account's token is used for that account only: every command a
    run starts is the listing, under the source token, or, in a real run,
    [gh repo fork] of a candidate's parent under the target token. *)
Theorem run_uses_each_token_for_its_account
    gh input_line json_loads self (local_repos : gmap string local_repo)
    (dry_run : bool) (argv : list string) (token : string) :
  (argv, token)
  ∈ subprocesses (snd (run gh input_line json_loads self local_repos dry_run))
  ->
  (argv = list_argv self /\ token = source_token self)
  \/ (dry_run = false /\ token = target_token self
      /\ exists repo name,
          repo ∈ candidates gh json_loads self local_repos
          /\ resolvable_parent repo = Some name
          /\ argv = fork_argv name).
Proof. apply subprocess_tokens. Qed.

Lemma run_uses_each_token_for_its_account_witness :
  (fork_argv "upstream/a" = list_argv alice_to_bob
   /\ "target-token" = source_token alice_to_bob)
  \/ (false = false /\ "target-token" = target_token alice_to_bob
      /\ exists repo name,
          repo ∈ candidates gh_succeeds (fun _ => [fork_a]) alice_to_bob ∅
          /\ resolvable_parent repo = Some name
          /\ fork_argv "upstream/a" = fork_argv name).
Proof.
  apply (run_uses_each_token_for_its_account gh_succeeds (fun _ _ => "y")
           (fun _ => [fork_a]) alice_to_bob ∅ false).
  vm_compute. right. left.
Defined.

(** The confirmation gate: a real run starts [gh repo fork] only after the
    operator was asked, once, and answered [y] or [Y]; nothing is forked
    before the prompt. *)
Theorem fork_only_after_confirmation
    gh input_line json_loads self (local_repos : gmap string local_repo) :
  fork_commands (snd (run gh input_line json_loads self local_repos false))
  <> [] ->
  exists before after,
    snd (run gh input_line json_loads self local_repos false)
    = (before ++ Input confirm_prompt :: after)%list
    /\ affirmative (input_line before confirm_prompt) = true
    /\ fork_commands before = []
    /\ prompts before = [].
Proof.
  intros Hfork.
  destruct (run_structure gh input_line json_loads self local_repos false)
    as (pre & Hpre & Hobs & E).
  rewrite E in *. clear E.
  assert (prompts pre = []) as Hprompts.
  { apply no_input_prompts. eapply Forall_impl; [exact Hpre|].
    intros [m|argv token|p] H q; [discriminate | discriminate | destruct H]. }
  assert (fork_commands pre = []) as Hfc
      by exact (f_equal obs_commands Hobs).
  assert (forall l, fork_commands (pre ++ l) = fork_commands l) as Hskip.
  { intros l. unfold fork_commands in *. now rewrite omap_app, Hfc. }
  destruct (listed_forks gh json_loads self) as [|r rest].
  { destruct Hfork. cbn [snd]. now rewrite Hskip. }
  rewrite confirm_and_migrate_cases in *.
  destruct (candidates gh json_loads self local_repos) as [|c cs] eqn:Hc.
  { destruct Hfork. cbn [snd]. now rewrite Hskip. }
  destruct (affirmative _) eqn:Hyes.
  - destruct (perform_migration_spec gh self false (c :: cs)
                ((pre ++ [Print (MsgAboutToMigrate (length (c :: cs))
                                   (target_username self))])
                 ++ [Input confirm_prompt])%list)
      as (res & out & -> & _).
    exists (pre ++ [Print (MsgAboutToMigrate (length (c :: cs))
                             (target_username self))])%list,
      (Print MsgStarting :: out).
    split; [cbn [snd]; now rewrite <- !app_assoc|].
    split; [exact Hyes|]. split.
    + now rewrite Hskip.
    + now rewrite prompts_app, Hprompts.
  - destruct Hfork. cbn [snd]. now rewrite <- !app_assoc, Hskip.
Qed.

Lemma fork_only_after_confirmation_witness :
  exists before after,
    snd (run gh_succeeds (fun _ _ => "Y") (fun _ => [fork_a]) alice_to_bob ∅
           false)
    = (before ++ Input confirm_prompt :: after)%list
    /\ affirmative ((fun _ _ => "Y") before confirm_prompt) = true
    /\ fork_commands before = []
    /\ prompts before = [].
Proof.
  apply (fork_only_after_confirmation gh_succeeds (fun _ _ => "Y")
           (fun _ => [fork_a]) alice_to_bob ∅).
  vm_compute. discriminate.
Defined.

(** The operator is asked exactly once, in a real run that has at least
    one candidate, and never otherwise: a dry run never prompts, and a run
    with nothing to migrate ends without asking. *)
Theorem operator_is_asked_at_most_once
    gh input_line json_loads self (local_repos : gmap string local_repo)
    (dry_run : bool) :
  prompts (snd (run gh input_line json_loads self local_repos dry_run))
  = match candidates gh json_loads self local_repos with
    | [] => []
    | _ :: _ => if dry_run then [] else [confirm_prompt]
    end.
Proof.
  destruct (run_structure gh input_line json_loads self local_repos dry_run)
    as (pre & Hpre & _ & ->).
  assert (prompts pre = []) as Hprompts.
  { apply no_input_prompts. eapply Forall_impl; [exact Hpre|].
    intros [m|argv token|p] H q; [discriminate | discriminate | destruct H]. }
  assert (forall tr,
             prompts (snd (perform_migration gh self dry_run
                             (candidates gh json_loads self local_repos) tr))
             = prompts tr) as Hperform.
  { intros tr.
    destruct (emits_perform_migration gh self
                (fun e => forall prompt, e <> Input prompt)
                (fun m p => ltac:(discriminate)) dry_run
                (candidates gh json_loads self local_repos)
                (fun _ _ _ _ _ p => ltac:(discriminate)) tr)
      as (out & -> & Hout).
    now rewrite prompts_app, (no_input_prompts out Hout), app_nil_r. }
  pose proof (candidates_listed gh json_loads self local_repos) as Hl.
  destruct (listed_forks gh json_loads self) as [|r rest].
  { destruct (candidates gh json_loads self local_repos);
      [|now destruct Hl].
    cbn [snd]. now rewrite prompts_app, Hprompts. }
  rewrite confirm_and_migrate_cases.
  destruct (candidates gh json_loads self local_repos) as [|c cs] eqn:Hc.
  { cbn [snd]. now rewrite prompts_app, Hprompts. }
  destruct dry_run.
  - now rewrite Hperform.
  - destruct (affirmative _).
    + rewrite Hperform, !prompts_app, Hprompts. reflexivity.
    + cbn [snd]. rewrite !prompts_app, Hprompts. reflexivity.
Qed.



End MigrationRun.

Section MigrationTally.
Import GitHubRepoScanner GitHubRepoMigrator MigratorFacts TraceFacts.

(** A failed fork is counted and the batch goes on.  In a confirmed real
    run over candidates none of whose parent is null, if every
    [gh repo fork] fails (or succeeds silently) the run still returns
    normally, has started the command for every candidate with a parent,
    in listing order, and reports 0 successful and all of them failed; if
    every one succeeds it reports all of them successful and prints no
    failure line. *)
Theorem tally_when_forks_end_alike
    gh input_line json_loads self (local_repos : gmap string local_repo)
    (b : bool) :
  candidates gh json_loads self local_repos <> [] ->
  (forall tr, affirmative (input_line tr confirm_prompt) = true) ->
  forallb (fun r => negb (parent_is_null r))
    (candidates gh json_loads self local_repos) = true ->
  (forall tr name,
      gh_reports_success
        (gh tr ["repo"; "fork"; name; "--fork-name";
                PyStr.split_last "/" name] (target_token self)) = b) ->
  fst (run gh input_line json_loads self local_repos false) = Ok tt
  /\ fork_commands (snd (run gh input_line json_loads self local_repos false))
     = omap resolvable_parent (candidates gh json_loads self local_repos)
  /\ successful_tally
       (snd (run gh input_line json_loads self local_repos false))
     = [if b
        then length (omap resolvable_parent
                       (candidates gh json_loads self local_repos))
        else 0]
  /\ failed_tally (snd (run gh input_line json_loads self local_repos false))
     = (if b then []
        else if (0 <? length (omap resolvable_parent
                                (candidates gh json_loads self local_repos)))%nat
             then [length (omap resolvable_parent
                             (candidates gh json_loads self local_repos))]
             else []).
Proof.
  intros Hne Hyes Hall Hgh.
  destruct (run_proceeds gh input_line json_loads self local_repos false
              Hne (or_intror Hyes)) as (pre & Hpre & ->).
  rewrite perform_migration_exact.
  destruct (migration_loop_spec gh self false
              (candidates gh json_loads self local_repos) 0 0
              (pre ++ [Print MsgStarting])%list)
    as (res & out & E & Hout & Hpost).
  pose proof (migration_loop_counts gh self b Hgh
                (candidates gh json_loads self local_repos) 0 0
                (pre ++ [Print MsgStarting])%list) as Hcount.
  rewrite E in *. cbn [fst] in Hcount.
  rewrite (processed_all _ Hall) in *.
  destruct res as [[s f]|e]; [|now destruct Hpost as [_ Hcut]].
  specialize (Hcount s f eq_refl). cbn [fst snd].
  set (n := length (omap resolvable_parent
                      (candidates gh json_loads self local_repos))) in *.
  assert (observe
            (((pre ++ [Print MsgStarting]) ++ out)
             ++ [Print MsgComplete; Print (MsgSuccessful s)]
             ++ (if (0 <? f)%nat then [Print (MsgFailed f)] else []))
          = obs_app
              (loop_observations false
                 (candidates gh json_loads self local_repos))
              {| obs_requests := []; obs_commands := [];
                 obs_dry_runs := []; obs_no_parent := [];
                 obs_successful := [s];
                 obs_failed := if (0 <? f)%nat then [f] else [] |})
    as Hobs.
  { rewrite !observe_app, Hpre, Hout.
    change (observe [Print MsgStarting]) with obs_nil.
    rewrite !obs_app_nil_l. f_equal. now destruct (0 <? f)%nat. }
  split; [reflexivity|]. split; [|split].
  - etransitivity; [exact (f_equal obs_commands Hobs)|].
    simpl. now rewrite app_nil_r.
  - etransitivity; [exact (f_equal obs_successful Hobs)|].
    simpl. destruct b; destruct Hcount as [-> _]; reflexivity.
  - etransitivity; [exact (f_equal obs_failed Hobs)|].
    simpl. destruct b; destruct Hcount as [_ ->]; reflexivity.
Qed.

Lemma tally_when_forks_end_alike_witness :
  failed_tally
    (snd (run gh_fork_fails (fun _ _ => "y")
            (fun _ => [fork_a; fork_orphan; fork_c]) alice_to_bob ∅ false))
  = [2].
Proof.
  refine (proj2 (proj2 (proj2
            (tally_when_forks_end_alike gh_fork_fails
               (fun _ _ => "y") (fun _ => [fork_a; fork_orphan; fork_c])
               alice_to_bob ∅ false _ _ _ _)))).
  - vm_compute. discriminate.
  - intros tr. reflexivity.
  - vm_compute. reflexivity.
  - intros tr name. reflexivity.
Defined.

End MigrationTally.

(** ** The entry point *)

Section MainProgram.
Import Fs GitHubRepoScanner GitHubRepoMigrator Main MigratorFacts.

Lemma or_else_cases (a b : option string) :
  or_else a b
  = match a with Some (String c s) => Some (String c s) | _ => b end.
Proof. destruct a as [[|c s]|]; reflexivity. Qed.

Lemma truthy_default (x : option string) :
  truthy x = true -> x = Some (default "" x) /\ default "" x <> "".
Proof. destruct x as [[|c s]|]; simpl; intros H; now try discriminate. Qed.




(** Every [gh] command of a run of [main] carries a non-empty token: the
    listing the source one and each fork the target one, where a token is
    the value of its flag when that is given and not empty, and the
    environment variable otherwise. *)
Theorem main_runs_gh_with_resolved_tokens
    environ filesystem git gh input_line json_loads (args : arguments)
    (scanner : scan_state) (migration : result unit * list event)
    (argv : list string) (token : string) :
  main environ filesystem git gh input_line json_loads args
  = Completed scanner migration ->
  (argv, token) ∈ subprocesses (snd migration) ->
  token <> ""
  /\ ((argv = ["gh"; "repo"; "list"; source_user args; "--fork"; "--json";
               "name,nameWithOwner,isFork,parent,url"; "--limit"; "1000"]
       /\ Some token
          = match arg_source_token args with
            | Some (String c s) => Some (String c s)
            | _ => environ "GITHUB_SOURCE_TOKEN"
            end)
      \/ (dry_run args = false
          /\ (exists name, argv = fork_argv name)
          /\ Some token
             = match arg_target_token args with
               | Some (String c s) => Some (String c s)
               | _ => environ "GITHUB_TARGET_TOKEN"
               end)).
Proof.
  unfold main. intros Hmain Hin.
  destruct (truthy (resolve_source_token environ args)) eqn:Hs;
    [|discriminate].
  destruct (truthy (resolve_target_token environ args)) eqn:Ht;
    [|discriminate].
  destruct (filesystem (local_path args)) as [fs|]; [|discriminate].
  cbn [negb] in Hmain. injection Hmain as <- <-.
  apply truthy_default in Hs as [Hs Hs'], Ht as [Ht Ht'].
  apply subprocess_tokens in Hin
    as [[-> ->]|(Hdry & -> & repo & name & _ & _ & ->)]; cbn.
  - split; [exact Hs'|]. left. split; [reflexivity|].
    rewrite <- Hs. apply or_else_cases.
  - split; [exact Ht'|]. right. split; [exact Hdry|]. split; [eauto|].
    rewrite <- Ht. apply or_else_cases.
Qed.

Lemma main_runs_gh_with_resolved_tokens_witness :
  "env-source" <> ""
  /\ ((list_argv {| source_token := "env-source";
                    target_token := "flag-target";
                    source_username := "acme"; target_username := "bob" |}
       = ["gh"; "repo"; "list"; source_user args_sample; "--fork"; "--json";
          "name,nameWithOwner,isFork,parent,url"; "--limit"; "1000"]
       /\ Some "env-source"
          = match arg_source_token args_sample with
            | Some (String c s) => Some (String c s)
            | _ => environ_sample "GITHUB_SOURCE_TOKEN"
            end)
      \/ (dry_run args_sample = false
          /\ (exists name,
                list_argv {| source_token := "env-source";
                             target_token := "flag-target";
                             source_username := "acme";
                             target_username := "bob" |}
                = fork_argv name)
          /\ Some "env-source"
             = match arg_target_token args_sample with
               | Some (String c s) => Some (String c s)
               | _ => environ_sample "GITHUB_TARGET_TOKEN"
               end)).
Proof.
  eapply (main_runs_gh_with_resolved_tokens environ_sample filesystem_sample
            git_nested gh_succeeds (fun _ _ => "y")
            (fun _ => [fork_acme_b; fork_a]) args_sample).
  - reflexivity.
  - vm_compute. left.
Defined.



End MainProgram.

(** ** The order of the fork calls *)

Section ForkOrder.
Import GitHubRepoMigrator.

Lemma fork_requests_in_listing_order_witness :
  fork_requests
    (snd (run gh_succeeds (fun _ _ => "n")
            (fun _ => [fork_a; fork_orphan; fork_c]) alice_to_bob ∅ true))
  = ["upstream/a"; "upstream/c"].
Proof.
  refine (proj1 (fork_requests_in_listing_order gh_succeeds
                   (fun _ _ => "n") (fun _ => [fork_a; fork_orphan; fork_c])
                   alice_to_bob ∅ true _ _)).
  - vm_compute. discriminate.
  - now left.
Defined.

End ForkOrder.
